(** * Hierarchical tree view of a rule set

    A shallow embedding of [lucid/visualization/hierarchical_tree.py]:
    term-frequency analysis, rule-set partitioning, the greedy recursive
    tree extraction and the annotation pass, together with the properties
    the specification states about them.

    Python sets are modelled as stdpp's [gset] (extensional, duplicate
    free); iterating over a set is iterating over [elements], one fixed
    enumeration of an order that Python leaves unspecified.  Python
    integers are [Z].  Scores and confidences are floats that the module
    only copies, so they are kept abstract. *)

From Stdlib Require Import ZArith String Ascii List.
From stdpp Require Import base decidable countable gmap sets list strings fin_maps sorting.

Local Open Scope string_scope.
Local Open Scope Z_scope.

(** ** Results of fallible code *)

(** [sorted_terms[0]] raises [IndexError] on an empty list; the recursive
    extractor is run with a step budget, whose exhaustion is a separate
    outcome that the adequacy lemma below rules out. *)
Inductive result (A : Type) : Type :=
| Ok (a : A)
| IndexError
| OutOfFuel.
Arguments Ok {A} a.
Arguments IndexError {A}.
Arguments OutOfFuel {A}.

Definition bind {A B : Type} (r : result A) (k : A → result B) : result B :=
  match r with
  | Ok a => k a
  | IndexError => IndexError
  | OutOfFuel => OutOfFuel
  end.

(** ** HTML helper *)

(** [s.replace(old, new)] for a two-character [old]: non-overlapping
    occurrences, scanned left to right. *)
Fixpoint replace2 (a b : ascii) (new : string) (s : string) : string :=
  match s with
  | EmptyString => EmptyString
  | String c s' =>
      match s' with
      | String d s'' =>
          if (Ascii.eqb c a && Ascii.eqb d b)%bool
          then new +:+ replace2 a b new s''
          else String c (replace2 a b new s')
      | EmptyString => String c EmptyString
      end
  end.

Definition _htmlify (s : string) : string :=
  replace2 ">" "=" "&geq;" (replace2 "<" "=" "&leq;" s).

(** ** Rules *)

Set Warnings "-register-all".

Section Hierarchy.
Set Default Proof Using "Type".
Context {Term : Type} {Term_eq : EqDecision Term} {Term_count : Countable Term}.
Context {Conclusion : Type} {Conclusion_eq : EqDecision Conclusion}
        {Conclusion_count : Countable Conclusion}.
Context {Confidence : Type} {Confidence_eq : EqDecision Confidence}
        {Confidence_count : Countable Confidence}.
Context {Score : Type} {Score_eq : EqDecision Score} {Score_count : Countable Score}.
Context {Dataset : Type}.

(** Rendering of terms and conclusions belongs to the rule classes:
    [str(term)], [term.to_cat_str(dataset)] and [str(rule.conclusion)]. *)
Context (str_term : Term → string).
Context (to_cat_str : Term → Dataset → string).
Context (str_conclusion : Conclusion → string).

(** The integer [0] that the base case stores as the score of a rule
    without a clause. *)
Context (score_zero : Score).

(** The rendering functions are functions into [string], which a
    propositional solver would read as implications: keep them out of
    its sight. *)
Ltac logic :=
  try clear to_cat_str; try clear str_term; try clear str_conclusion;
  try clear score_zero; tauto.

(** Modelled from the spec: [lucid.rules.clause.ConjunctiveClause] is not
    part of the sources at hand; it is a set of terms together with a
    confidence and a score. *)
Record ConjunctiveClause : Type :=
  mkClause {
      terms : gset Term;
      confidence : Confidence;
      clause_score : Score
    }.

#[global] Instance clause_eq_dec : EqDecision ConjunctiveClause.
Proof using Type Confidence_eq Score_eq. solve_decision. Defined.

#[global] Instance clause_countable : Countable ConjunctiveClause.
Proof using Type Confidence_count Score_count.
  refine (inj_countable'
            (λ c, (terms c, confidence c, clause_score c))
            (λ p, mkClause p.1.1 p.1.2 p.2) _).
  by intros [].
Defined.

(** Modelled from the spec: [lucid.rules.rule.Rule], a set of clauses (the
    premise) and one conclusion. *)
Record Rule : Type :=
  mkRule {
      premise : gset ConjunctiveClause;
      conclusion : Conclusion
    }.

#[global] Instance rule_eq_dec : EqDecision Rule.
Proof using Type Conclusion_eq. solve_decision. Defined.

#[global] Instance rule_countable : Countable Rule.
Proof using Type Conclusion_count.
  refine (inj_countable'
            (λ r, (premise r, conclusion r))
            (λ p, mkRule p.1 p.2) _).
  by intros [].
Defined.

(** Modelled from the spec: [lucid.rules.ruleset.Ruleset], a set of rules
    with the feature names, the output class names and the regression
    flag; [len(ruleset)] is the number of its rules. *)
Record Ruleset : Type :=
  mkRuleset {
      rules : gset Rule;
      feature_names : list string;
      output_class_names : list string;
      regression : bool
    }.

(** ** Partitioning a rule set on a term *)

(** The inner search loop of [_partition_ruleset]: scan the clause's
    terms until one equals [term]. *)
Definition found_term (term : Term) (clause : ConjunctiveClause) : bool :=
  existsb (λ c_term, bool_decide (c_term = term)) (elements (terms clause)).

(** [set([t for t in clause.terms if t != term])] *)
Definition without_term (term : Term) (clause : ConjunctiveClause) : gset Term :=
  list_to_set (List.filter (λ t, bool_decide (t ≠ term)) (elements (terms clause))).

(** One round of the loop over a rule's clauses; the state is the pair of
    rule sets under construction (R1, R2). *)
Definition partition_clause (term : Term) (rule : Rule)
    (acc : gset Rule * gset Rule) (clause : ConjunctiveClause)
  : gset Rule * gset Rule :=
  if found_term term clause
  then ({[ mkRule {[ mkClause (without_term term clause)
                              (confidence clause)
                              (clause_score clause) ]}
                  (conclusion rule) ]} ∪ acc.1, acc.2)
  else (acc.1, {[ mkRule {[ clause ]} (conclusion rule) ]} ∪ acc.2).

Definition partition_rule (term : Term)
    (acc : gset Rule * gset Rule) (rule : Rule) : gset Rule * gset Rule :=
  foldl (partition_clause term rule) acc (elements (premise rule)).

Definition _partition_ruleset (ruleset : Ruleset) (term : Term)
  : Ruleset * Ruleset :=
  let acc := foldl (partition_rule term) (∅, ∅) (elements (rules ruleset)) in
  (mkRuleset acc.1 (feature_names ruleset) (output_class_names ruleset)
             (regression ruleset),
   mkRuleset acc.2 (feature_names ruleset) (output_class_names ruleset)
             (regression ruleset)).

(** ** Term frequencies *)

(** [dict.get(k, 0)], also the read of a [defaultdict(int)]. *)
Definition get0 `{Countable K} (m : gmap K Z) (k : K) : Z := default 0 (m !! k).

(** The body of the innermost loop of [_get_term_counts]; the state is
    [(all_terms, num_used_rules_per_term_map)]. *)
Definition count_term (acc : gset Term * gmap Term Z) (term : Term)
  : gset Term * gmap Term Z :=
  ({[ term ]} ∪ acc.1, <[ term := get0 acc.2 term + 1 ]> acc.2).

Definition count_clause (acc : gset Term * gmap Term Z)
    (clause : ConjunctiveClause) : gset Term * gmap Term Z :=
  foldl count_term acc (elements (terms clause)).

Definition count_rule (acc : gset Term * gmap Term Z) (rule : Rule)
  : gset Term * gmap Term Z :=
  foldl count_clause acc (elements (premise rule)).

(** Python's [sorted(l, key=...)]: ascending in the key and stable. *)
Fixpoint insert_by {A : Type} (key : A → Z) (x : A) (l : list A) : list A :=
  match l with
  | [] => [x]
  | y :: l' => if key x <=? key y then x :: l else y :: insert_by key x l'
  end.

Definition sorted {A : Type} (key : A → Z) (l : list A) : list A :=
  foldr (insert_by key) [] l.

Definition _get_term_counts (ruleset : Ruleset) : list Term * gmap Term Z :=
  let acc := foldl count_rule (∅, ∅) (elements (rules ruleset)) in
  let num_used_rules_per_term_map := acc.2 in
  let used_terms :=
    sorted (λ x, - get0 num_used_rules_per_term_map x) (elements acc.1) in
  (used_terms, num_used_rules_per_term_map).

(** ** Tree nodes *)

(** A D3 node is a Python dict; the keys beyond ["name"] and ["children"]
    are optional, so they are [option] fields. *)
Inductive Node : Type :=
  mkNode {
      name : string;
      children : list Node;
      score : option Score;
      depth : option Z;
      num_descendants : option Z;
      class_counts : option (gmap string Z)
    }.

(** A freshly built node: no annotation yet. *)
Definition raw_node (n : string) (ch : list Node) (s : option Score) : Node :=
  mkNode n ch s None None None.

(** ** Recursive extraction *)

(** [x.to_cat_str(dataset) if dataset is not None else str(x)] *)
Definition render (dataset : option Dataset) (x : Term) : string :=
  match dataset with
  | Some d => to_cat_str x d
  | None => str_term x
  end.

(** The non-merging branch of the base case links one node per term, each
    the only child of the one before, and hangs the conclusion under the
    last one. *)
Definition chain (dataset : option Dataset) (ts : list Term)
    (conclusion_node : Node) : list Node :=
  foldr (λ term rest, [raw_node (_htmlify (render dataset term)) rest None])
        [conclusion_node] ts.

(** The base case: the rule set holds the single rule [rule]. *)
Definition base_case (rule : Rule) (dataset : option Dataset) (merge : bool)
  : list Node :=
  let clause := head (elements (premise rule)) in
  let conclusion_node :=
    raw_node (_htmlify (str_conclusion (conclusion rule))) []
             (Some (match clause with
                    | Some c => clause_score c
                    | None => score_zero
                    end)) in
  match clause with
  | Some c =>
      match elements (terms c) with
      | [] => [conclusion_node]
      | ts =>
          if merge
          then [raw_node
                  (_htmlify (String.concat " AND " (map (render dataset) ts)))
                  [conclusion_node] None]
          else chain dataset ts conclusion_node
      end
  | None => [conclusion_node]
  end.

(** The recursion is not structural, so it runs on a step budget. *)
Fixpoint extract_fuel (fuel : nat) (ruleset : Ruleset)
    (dataset : option Dataset) (merge : bool) : result (list Node) :=
  match fuel with
  | O => OutOfFuel
  | S fuel' =>
      match elements (rules ruleset) with
      | [] => Ok []
      | [rule] => Ok (base_case rule dataset merge)
      | _ =>
          match (_get_term_counts ruleset).1 with
          | [] => IndexError
          | next_term :: _ =>
              let parts := _partition_ruleset ruleset next_term in
              bind (extract_fuel fuel' parts.1 dataset merge) (λ kids,
              bind (extract_fuel fuel' parts.2 dataset merge) (λ rest,
              Ok (raw_node (_htmlify (render dataset next_term)) kids None
                    :: rest)))
          end
      end
  end.

(** Every clause weighs one more than its number of terms; a split
    strictly lowers the total weight of both parts. *)
Definition clause_weight (c : ConjunctiveClause) : nat := S (size (terms c)).

Definition rule_weight (r : Rule) : nat :=
  sum_list_with clause_weight (elements (premise r)).

Definition ruleset_weight (ruleset : Ruleset) : nat :=
  sum_list_with rule_weight (elements (rules ruleset)).

Definition _extract_hierarchy_node (ruleset : Ruleset)
    (dataset : option Dataset) (merge : bool) : result (list Node) :=
  extract_fuel (S (ruleset_weight ruleset)) ruleset dataset merge.

(** ** Annotation *)

(** Reads of the keys that the annotation of a child has just written. *)
Definition get_num_descendants (n : Node) : Z := default 0 (num_descendants n).
Definition get_class_counts (n : Node) : gmap string Z :=
  default ∅ (class_counts n).

(** [for class_name, count in child_counts.items():
       class_counts[class_name] = count + class_counts.get(class_name, 0)] *)
Definition add_counts (class_counts child_counts : gmap string Z)
  : gmap string Z :=
  map_fold (λ class_name count acc, <[ class_name := count + get0 acc class_name ]> acc)
           class_counts child_counts.

(** The recursive call passes no [merge], so below the node it is called
    on the flag has its default value [False]. *)
Fixpoint _compute_tree_properties (tree : Node) (depth : Z) (merge : bool)
  : Node :=
  match tree with
  | mkNode nm ch sc _ _ _ =>
      match ch with
      | [] => mkNode nm [] sc (Some depth) (Some 0) (Some {[ nm := 1 ]})
      | old_child :: others =>
          let collapse :=
            (negb (depth =? 0) && (Nat.eqb (length ch) 1) && merge
             && negb (Nat.eqb (length (children old_child)) 0))%bool in
          let nm' := if collapse then nm +:+ " AND " +:+ name old_child else nm in
          let kids :=
            map (λ child, _compute_tree_properties child (depth + 1) false)
                (if collapse then children old_child else ch) in
          mkNode nm' kids sc (Some depth)
            (Some (foldl (λ acc child, acc + (get_num_descendants child + 1))
                         0 kids))
            (Some (foldl (λ acc child, add_counts acc (get_class_counts child))
                         ∅ kids))
      end
  end.

Definition ruleset_hierarchy_tree (ruleset : Ruleset)
    (dataset : option Dataset) (merge : bool) : result Node :=
  bind (_extract_hierarchy_node ruleset dataset merge) (λ kids,
  Ok (_compute_tree_properties (raw_node "ruleset" kids None) 0 merge)).

(** ** Properties of the annotation pass *)

(** [P] holds at every node of the tree rooted at [t]. *)
Inductive every_node (P : Node → Prop) : Node → Prop :=
| every_node_intro (t : Node) :
    P t → Forall (every_node P) (children t) → every_node P t.

Definition sum_Z (l : list Z) : Z := foldr Z.add 0 l.

(** Number of nodes strictly below [t]. *)
Fixpoint count_descendants (t : Node) : Z :=
  match t with
  | mkNode _ ch _ _ _ _ => sum_Z (map (λ c, count_descendants c + 1) ch)
  end.

(** Number of nodes without children in the subtree rooted at [t]. *)
Fixpoint count_leaves (t : Node) : Z :=
  match t with
  | mkNode _ ch _ _ _ _ =>
      match ch with
      | [] => 1
      | _ => sum_Z (map count_leaves ch)
      end
  end.

(** [sum(d.values())] *)
Definition sum_values (m : gmap string Z) : Z :=
  map_fold (λ _ v acc, v + acc) 0 m.

(** Structural induction on nodes, with the hypothesis for every child. *)
Fixpoint Node_children_ind (P : Node → Prop)
    (step : ∀ nm ch sc d nd cc, Forall P ch → P (mkNode nm ch sc d nd cc))
    (t : Node) : P t :=
  match t with
  | mkNode nm ch sc d nd cc =>
      step nm ch sc d nd cc
           ((fix all (l : list Node) : Forall P l :=
               match l with
               | [] => List.Forall_nil P
               | c :: l' =>
                   @List.Forall_cons _ P c l' (Node_children_ind P step c) (all l')
               end) ch)
  end.

Lemma foldl_add_sum {A : Type} (f : A → Z) (l : list A) (a : Z) :
  foldl (λ acc x, acc + f x) a l = a + sum_Z (map f l).
Proof.
  revert a. induction l as [|x l IH]; intros a; simpl.
  - lia.
  - rewrite IH. unfold sum_Z. simpl. lia.
Qed.

(** What the annotation of a node with children computes. *)
Definition annotated (nm : string) (sc : option Score) (depth : Z)
    (ch : list Node) : Node :=
  let kids := map (λ child, _compute_tree_properties child (depth + 1) false) ch in
  mkNode nm kids sc (Some depth)
         (Some (foldl (λ acc child, acc + (get_num_descendants child + 1)) 0 kids))
         (Some (foldl (λ acc child, add_counts acc (get_class_counts child)) ∅ kids)).

Lemma compute_leaf nm sc d nd cc depth merge :
  _compute_tree_properties (mkNode nm [] sc d nd cc) depth merge
  = mkNode nm [] sc (Some depth) (Some 0) (Some {[ nm := 1 ]}).
Proof. reflexivity. Qed.

Lemma compute_no_merge nm c ch sc d nd cc depth :
  _compute_tree_properties (mkNode nm (c :: ch) sc d nd cc) depth false
  = annotated nm sc depth (c :: ch).
Proof.
  unfold annotated. simpl.
  by rewrite !andb_false_r.
Qed.

(** Either way the result is the plain annotation of some node with at
    least one child: the node itself, or the node collapsed with its only
    child. *)
Lemma compute_inner nm c ch sc d nd cc depth merge :
  ∃ nm' c' ch',
    _compute_tree_properties (mkNode nm (c :: ch) sc d nd cc) depth merge
    = annotated nm' sc depth (c' :: ch').
Proof.
  unfold annotated. cbn [_compute_tree_properties].
  destruct ((negb (depth =? 0) && (Nat.eqb (length (c :: ch)) 1) && merge
             && negb (Nat.eqb (length (children c)) 0))%bool) eqn:Hc.
  - destruct (children c) as [|c' ch'] eqn:Hch.
    { simpl in Hc. by rewrite andb_false_r in Hc. }
    by exists (nm +:+ " AND " +:+ name c), c', ch'.
  - by exists nm, c, ch.
Qed.

(** Key-wise additive merge of two count maps, stated with the library's
    [union_with] rather than with the loop of the source. *)
Definition merge_additive (m1 m2 : gmap string Z) : gmap string Z :=
  union_with (λ a b, Some (a + b)) m1 m2.

Lemma add_counts_insert (acc m : gmap string Z) (i : string) (x : Z) :
  m !! i = None →
  map_first_key (<[i:=x]> m) i →
  add_counts acc (<[i:=x]> m)
  = <[ i := x + get0 (add_counts acc m) i ]> (add_counts acc m).
Proof.
  intros Hi Hfirst. unfold add_counts.
  by rewrite map_fold_insert_first_key.
Qed.

Lemma add_counts_spec (acc m : gmap string Z) :
  add_counts acc m = merge_additive acc m.
Proof.
  induction m as [|i x m Hi Hfirst IH] using map_first_key_ind.
  - unfold add_counts, merge_additive.
    rewrite map_fold_empty. by rewrite (right_id ∅ _).
  - rewrite add_counts_insert by done. rewrite IH.
    unfold merge_additive, get0. apply map_eq. intros j.
    destruct (decide (i = j)) as [<-|Hne].
    + rewrite lookup_insert_eq, !lookup_union_with, Hi, lookup_insert_eq.
      destruct (acc !! i); simpl; f_equal; lia.
    + rewrite lookup_insert_ne by done.
      rewrite !lookup_union_with. by rewrite lookup_insert_ne.
Qed.

Lemma sum_values_empty : sum_values ∅ = 0.
Proof. unfold sum_values. by rewrite map_fold_empty. Qed.

Lemma sum_values_insert_fresh (m : gmap string Z) (k : string) (v : Z) :
  m !! k = None → sum_values (<[k:=v]> m) = v + sum_values m.
Proof.
  intros Hk. unfold sum_values.
  rewrite map_fold_insert_L; [done| |done].
  intros. lia.
Qed.

Lemma sum_values_insert (m : gmap string Z) (k : string) (v : Z) :
  sum_values (<[k:=v]> m) = v - get0 m k + sum_values m.
Proof.
  unfold get0. destruct (m !! k) as [x|] eqn:Hk; simpl.
  - rewrite <- (insert_delete_eq m k v).
    pose proof (insert_delete_id m k x Hk) as Hm.
    rewrite <- Hm at 2.
    rewrite !sum_values_insert_fresh by apply lookup_delete_eq. lia.
  - rewrite sum_values_insert_fresh by done. lia.
Qed.

Lemma sum_values_singleton (k : string) (v : Z) :
  sum_values {[ k := v ]} = v.
Proof.
  rewrite <- insert_empty, sum_values_insert_fresh by apply lookup_empty.
  rewrite sum_values_empty. lia.
Qed.

Lemma sum_values_add_counts (acc m : gmap string Z) :
  sum_values (add_counts acc m) = sum_values acc + sum_values m.
Proof.
  induction m as [|i x m Hi Hfirst IH] using map_first_key_ind.
  - unfold add_counts. rewrite map_fold_empty, sum_values_empty. lia.
  - rewrite add_counts_insert by done.
    rewrite sum_values_insert, IH, sum_values_insert_fresh by done. lia.
Qed.

Lemma foldl_add_counts_spec (ms : list (gmap string Z)) (acc : gmap string Z) :
  foldl add_counts acc ms = foldl merge_additive acc ms.
Proof.
  revert acc. induction ms as [|m ms IH]; intros acc; simpl; [done|].
  by rewrite add_counts_spec, IH.
Qed.

Lemma sum_values_foldl_add_counts (ms : list (gmap string Z)) (acc : gmap string Z) :
  sum_values (foldl add_counts acc ms) = sum_values acc + sum_Z (map sum_values ms).
Proof.
  revert acc. induction ms as [|m ms IH]; intros acc; simpl.
  - unfold sum_Z. simpl. lia.
  - rewrite IH, sum_values_add_counts. unfold sum_Z. simpl. lia.
Qed.

Lemma foldl_class_counts (kids : list Node) (acc : gmap string Z) :
  foldl (λ acc child, add_counts acc (get_class_counts child)) acc kids
  = foldl add_counts acc (map get_class_counts kids).
Proof.
  revert acc. induction kids as [|c kids IH]; intros acc; simpl; [done|].
  by rewrite IH.
Qed.

Lemma sum_Z_map_ext {A : Type} (f g : A → Z) (l : list A) :
  Forall (λ x, f x = g x) l → sum_Z (map f l) = sum_Z (map g l).
Proof.
  induction 1 as [|x l Hx _ IH]; [done|].
  unfold sum_Z in *. simpl. by rewrite Hx, IH.
Qed.

(** The three invariants of an annotated node. *)
Definition descendants_ok (t : Node) : Prop :=
  (children t = [] → num_descendants t = Some 0)
  ∧ num_descendants t
    = Some (sum_Z (map (λ c, get_num_descendants c + 1) (children t)))
  ∧ num_descendants t = Some (count_descendants t).

Definition depth_ok (t : Node) : Prop :=
  ∃ d, depth t = Some d ∧ Forall (λ c, depth c = Some (d + 1)) (children t).

Definition class_counts_ok (t : Node) : Prop :=
  ∃ cc, class_counts t = Some cc
    ∧ (children t = [] → cc = {[ name t := 1 ]})
    ∧ (children t ≠ [] →
       cc = foldl merge_additive ∅ (map get_class_counts (children t)))
    ∧ sum_values cc = count_leaves t.

Definition annotation_ok (t : Node) : Prop :=
  descendants_ok t ∧ depth_ok t ∧ class_counts_ok t.

Lemma every_node_here (P : Node → Prop) (t : Node) : every_node P t → P t.
Proof. by destruct 1. Qed.

Lemma every_node_impl (P Q : Node → Prop) (t : Node) :
  (∀ n, P n → Q n) → every_node P t → every_node Q t.
Proof.
  intros HPQ. induction t as [nm ch sc d nd cc IH] using Node_children_ind.
  intros Ht. inversion Ht as [t' Hhere Hch]; subst.
  constructor; [by apply HPQ|].
  simpl in *. clear Ht Hhere.
  induction Hch as [|c l Hc _ IHl]; [constructor|].
  inversion IH; subst. constructor; auto.
Qed.

Lemma compute_depth (tree : Node) (d : Z) (merge : bool) :
  depth (_compute_tree_properties tree d merge) = Some d.
Proof. destruct tree as [nm [|c ch] sc ? ? ?]; reflexivity. Qed.

Lemma compute_score (tree : Node) (d : Z) (merge : bool) :
  score (_compute_tree_properties tree d merge) = score tree.
Proof. destruct tree as [nm [|c ch] sc ? ? ?]; reflexivity. Qed.

Lemma compute_sets_fields (tree : Node) (d : Z) (merge : bool) :
  is_Some (num_descendants (_compute_tree_properties tree d merge))
  ∧ is_Some (class_counts (_compute_tree_properties tree d merge)).
Proof. destruct tree as [nm [|c ch] sc ? ? ?]; split; by eexists. Qed.

(** Reduce the projections of a node that is given by its fields. *)
Ltac fields := cbn [name children score depth num_descendants class_counts].

Lemma count_descendants_eq (t : Node) :
  count_descendants t = sum_Z (map (λ c, count_descendants c + 1) (children t)).
Proof. by destruct t. Qed.

Lemma count_leaves_inner (t : Node) :
  children t ≠ [] → count_leaves t = sum_Z (map count_leaves (children t)).
Proof. by destruct t as [? [|??] ? ? ? ?]. Qed.

Lemma annotated_ok nm sc dp c ch :
  Forall (λ c, ∀ d, every_node annotation_ok (_compute_tree_properties c d false))
         (c :: ch) →
  every_node annotation_ok (annotated nm sc dp (c :: ch)).
Proof.
  intros IH. unfold annotated.
  set (kids := map _ (c :: ch)).
  assert (Hkids : Forall (every_node annotation_ok) kids).
  { subst kids. apply Forall_map. eapply Forall_impl; [exact IH|]. auto. }
  assert (Hne : kids ≠ []) by (subst kids; discriminate).
  assert (Hdepth : Forall (λ k, depth k = Some (dp + 1)) kids).
  { subst kids. apply Forall_map, Forall_forall. intros k _. apply compute_depth. }
  clearbody kids.
  constructor; [|exact Hkids].
  unfold annotation_ok, descendants_ok, depth_ok, class_counts_ok.
  rewrite count_descendants_eq, count_leaves_inner by done.
  fields. rewrite foldl_add_sum, Z.add_0_l, foldl_class_counts.
  repeat split.
  - intros Hnil. by destruct (Hne Hnil).
  - f_equal. apply sum_Z_map_ext.
    eapply Forall_impl; [exact Hkids|]. intros k Hk.
    apply every_node_here in Hk as [(_ & _ & Hk) _].
    unfold get_num_descendants. by rewrite Hk.
  - exists dp. by split.
  - eexists. split; [done|]. split; [intros Hnil; by destruct (Hne Hnil)|].
    split.
    + intros _. apply foldl_add_counts_spec.
    + rewrite sum_values_foldl_add_counts, sum_values_empty, Z.add_0_l.
      rewrite map_map.
      apply sum_Z_map_ext.
      eapply Forall_impl; [exact Hkids|]. intros k0 Hk0.
      apply every_node_here in Hk0 as (_ & _ & (cc0 & Hcc0 & _ & _ & Hsum)).
      unfold get_class_counts. by rewrite Hcc0.
Qed.

Lemma compute_no_merge_ok (tree : Node) :
  ∀ d, every_node annotation_ok (_compute_tree_properties tree d false).
Proof.
  induction tree as [nm ch sc d0 nd cc IH] using Node_children_ind.
  intros d. destruct ch as [|c ch].
  - rewrite compute_leaf. constructor; [|constructor].
    split; [|split]; simpl.
    + by unfold sum_Z.
    + exists d. by split.
    + eexists. split; [done|]. split; [done|]. split; [done|].
      apply sum_values_singleton.
  - rewrite compute_no_merge. by apply annotated_ok.
Qed.

(** The invariants hold whatever the arguments of the annotation pass. *)
Lemma compute_ok (tree : Node) (d : Z) (merge : bool) :
  every_node annotation_ok (_compute_tree_properties tree d merge).
Proof.
  destruct tree as [nm [|c ch] sc d0 nd cc].
  - apply (compute_no_merge_ok (mkNode nm [] sc d0 nd cc)).
  - destruct (compute_inner nm c ch sc d0 nd cc d merge) as (nm' & c' & ch' & ->).
    apply annotated_ok. apply Forall_forall.
    intros k _ d'. apply compute_no_merge_ok.
Qed.

(** ** Properties of the partition *)

(** The (rule, clause) pairs that the nested loops visit, in order. *)
Definition clause_pairs (ruleset : Ruleset) : list (Rule * ConjunctiveClause) :=
  elements (rules ruleset) ≫= λ r, pair r <$> elements (premise r).

(** The clause without the term, as the specification words it. *)
Definition strip_term (term : Term) (c : ConjunctiveClause) : ConjunctiveClause :=
  mkClause (terms c ∖ {[ term ]}) (confidence c) (clause_score c).

Definition contain_of (term : Term) (p : Rule * ConjunctiveClause) : Rule :=
  mkRule {[ strip_term term p.2 ]} (conclusion p.1).

Definition disjoint_of (p : Rule * ConjunctiveClause) : Rule :=
  mkRule {[ p.2 ]} (conclusion p.1).

Definition has_term (term : Term) (p : Rule * ConjunctiveClause) : Prop :=
  term ∈ terms p.2.

#[global] Instance has_term_dec (term : Term) (p : Rule * ConjunctiveClause) :
  Decision (has_term term p).
Proof. unfold has_term. apply _. Defined.

Lemma elem_of_clause_pairs (ruleset : Ruleset) (r : Rule) (c : ConjunctiveClause) :
  (r, c) ∈ clause_pairs ruleset ↔ r ∈ rules ruleset ∧ c ∈ premise r.
Proof.
  unfold clause_pairs. rewrite list_elem_of_bind. split.
  - intros (r' & Hin & Hr'). apply list_elem_of_fmap in Hin as (c' & Heq & Hc').
    injection Heq as -> ->.
    apply elem_of_elements in Hr'. apply elem_of_elements in Hc'. done.
  - intros [Hr Hc]. exists r. split; [|by apply elem_of_elements].
    apply list_elem_of_fmap. exists c. split; [done|by apply elem_of_elements].
Qed.

Lemma found_term_spec (term : Term) (c : ConjunctiveClause) :
  found_term term c = true ↔ term ∈ terms c.
Proof.
  unfold found_term. rewrite existsb_exists. split.
  - intros (x & Hin & Hx). apply bool_decide_eq_true in Hx as ->.
    by apply elem_of_elements, list_elem_of_In.
  - intros Hin. exists term. split.
    + by apply list_elem_of_In, elem_of_elements.
    + by apply bool_decide_eq_true.
Qed.

Lemma without_term_spec (term : Term) (c : ConjunctiveClause) :
  without_term term c = terms c ∖ {[ term ]}.
Proof.
  unfold without_term. apply set_eq. intros x.
  rewrite elem_of_list_to_set, list_elem_of_In, filter_In.
  rewrite <- list_elem_of_In, elem_of_elements, bool_decide_eq_true.
  rewrite elem_of_difference, elem_of_singleton. logic.
Qed.

Lemma partition_clause_spec (term : Term) (r : Rule)
    (acc : gset Rule * gset Rule) (c : ConjunctiveClause) :
  partition_clause term r acc c
  = if decide (has_term term (r, c))
    then ({[ contain_of term (r, c) ]} ∪ acc.1, acc.2)
    else (acc.1, {[ disjoint_of (r, c) ]} ∪ acc.2).
Proof.
  unfold partition_clause. rewrite without_term_spec.
  destruct (decide (has_term term (r, c))) as [Hin|Hout].
  - unfold has_term in Hin. cbn [snd] in Hin.
    apply found_term_spec in Hin. by rewrite Hin.
  - destruct (found_term term c) eqn:Hf; [|done].
    by apply found_term_spec in Hf.
Qed.

Lemma partition_fold_pairs (term : Term) (lr : list Rule)
    (acc : gset Rule * gset Rule) :
  foldl (partition_rule term) acc lr
  = foldl (λ acc p, partition_clause term p.1 acc p.2) acc
          (lr ≫= λ r, pair r <$> elements (premise r)).
Proof.
  revert acc. induction lr as [|r lr IH]; intros acc; [done|].
  rewrite bind_cons, foldl_app. cbn [foldl]. rewrite IH.
  f_equal. unfold partition_rule. by rewrite foldl_fmap.
Qed.

(** Equations between unions of the same sets. *)
Ltac union_ac := apply set_eq; intros ?; rewrite ?elem_of_union; logic.

Lemma fold_pairs_spec (term : Term) (l : list (Rule * ConjunctiveClause))
    (acc : gset Rule * gset Rule) :
  foldl (λ acc p, partition_clause term p.1 acc p.2) acc l
  = (list_to_set (contain_of term <$> filter (has_term term) l) ∪ acc.1,
     list_to_set (disjoint_of <$> filter (λ p, ¬ has_term term p) l) ∪ acc.2).
Proof.
  revert acc. induction l as [|[r c] l IH]; intros [a1 a2].
  - cbn. by rewrite !(left_id_L ∅ (∪)).
  - cbn [foldl]. rewrite IH, partition_clause_spec. cbn [fst snd].
    rewrite !filter_cons.
    destruct (decide (has_term term (r, c))) as [Hin|Hout].
    + rewrite decide_False by (intros Hn; apply Hn, Hin).
      cbn [fst snd]. rewrite fmap_cons, list_to_set_cons.
      f_equal. union_ac.
    + rewrite decide_True by done.
      cbn [fst snd]. rewrite fmap_cons, list_to_set_cons.
      f_equal. union_ac.
Qed.

Lemma partition_contain (ruleset : Ruleset) (term : Term) :
  rules (_partition_ruleset ruleset term).1
  = list_to_set (contain_of term <$> filter (has_term term) (clause_pairs ruleset)).
Proof.
  unfold _partition_ruleset. cbn [fst rules].
  rewrite partition_fold_pairs, fold_pairs_spec.
  cbn [fst]. by rewrite (right_id_L ∅ (∪)).
Qed.

Lemma partition_disjoint (ruleset : Ruleset) (term : Term) :
  rules (_partition_ruleset ruleset term).2
  = list_to_set (disjoint_of <$> filter (λ p, ¬ has_term term p) (clause_pairs ruleset)).
Proof.
  unfold _partition_ruleset. cbn [snd rules].
  rewrite partition_fold_pairs, fold_pairs_spec.
  cbn [snd]. by rewrite (right_id_L ∅ (∪)).
Qed.

(** ** Properties of the term ranking *)

(** The terms in the order in which the three nested loops visit them. *)
Definition visited_terms (ruleset : Ruleset) : list Term :=
  clause_pairs ruleset ≫= λ p, elements (terms p.2).

(** Number of (rule, clause) pairs whose clause holds the term. *)
Definition clauses_using (term : Term) (ruleset : Ruleset) : nat :=
  length (filter (has_term term) (clause_pairs ruleset)).

(** The rule has a clause that holds the term. *)
Definition uses_term (term : Term) (r : Rule) : Prop :=
  set_Exists (λ c, term ∈ terms c) (premise r).

#[global] Instance uses_term_dec (term : Term) (r : Rule) :
  Decision (uses_term term r).
Proof. unfold uses_term. apply _. Defined.

(** Number of distinct rules with a clause that holds the term. *)
Definition rules_using (term : Term) (ruleset : Ruleset) : nat :=
  length (filter (uses_term term) (elements (rules ruleset))).

Lemma count_fold_terms (lr : list Rule) (acc : gset Term * gmap Term Z) :
  foldl count_rule acc lr
  = foldl count_term acc
          ((lr ≫= λ r, pair r <$> elements (premise r))
             ≫= λ p, elements (terms p.2)).
Proof.
  revert acc. induction lr as [|r lr IH]; intros acc; [done|].
  rewrite bind_cons, bind_app, foldl_app. cbn [foldl]. rewrite IH. f_equal.
  unfold count_rule. generalize (elements (premise r)). clear.
  intros lc. revert acc. induction lc as [|c lc IH]; intros acc; [done|].
  rewrite fmap_cons, bind_cons, foldl_app. cbn [foldl]. by rewrite IH.
Qed.

Lemma count_terms_set (l : list Term) (acc : gset Term * gmap Term Z) :
  (foldl count_term acc l).1 = list_to_set l ∪ acc.1.
Proof.
  revert acc. induction l as [|t l IH]; intros [a m].
  - cbn. by rewrite (left_id_L ∅ (∪)).
  - cbn [foldl]. rewrite IH. cbn [count_term fst]. rewrite list_to_set_cons.
    union_ac.
Qed.

Lemma count_terms_map (l : list Term) (acc : gset Term * gmap Term Z) (t : Term) :
  get0 (foldl count_term acc l).2 t
  = get0 acc.2 t + Z.of_nat (length (filter (λ x, x = t) l)).
Proof.
  revert acc. induction l as [|x l IH]; intros [a m].
  - cbn. lia.
  - cbn [foldl]. rewrite IH. cbn [count_term snd fst]. rewrite filter_cons.
    unfold get0 at 1. destruct (decide (x = t)) as [->|Hne].
    + rewrite lookup_insert_eq. cbn [default length]. unfold id. lia.
    + rewrite lookup_insert_ne by done. fold (get0 m t). lia.
Qed.

Lemma count_terms_dom (l : list Term) (acc : gset Term * gmap Term Z) (t : Term) :
  (foldl count_term acc l).2 !! t = None ↔ acc.2 !! t = None ∧ t ∉ l.
Proof.
  revert acc. induction l as [|x l IH]; intros [a m].
  - cbn. rewrite elem_of_nil. logic.
  - cbn [foldl]. rewrite IH. cbn [count_term snd fst].
    rewrite elem_of_cons. destruct (decide (x = t)) as [->|Hne].
    + rewrite lookup_insert_eq. split; [intros [? _]; done|logic].
    + rewrite lookup_insert_ne by done. split; [|logic].
      intros [? ?]. split; [done|]. intros [?|?]; [congruence|done].
Qed.

Lemma occurrences_NoDup (l : list Term) (t : Term) :
  NoDup l →
  length (filter (λ x, x = t) l) = if decide (t ∈ l) then 1%nat else 0%nat.
Proof.
  induction 1 as [|x l Hx Hl IH].
  - by rewrite decide_False by apply not_elem_of_nil.
  - rewrite filter_cons. destruct (decide (x = t)) as [->|Hne].
    + cbn [length]. rewrite IH. rewrite decide_False by done.
      by rewrite decide_True by apply list_elem_of_here.
    + rewrite IH. destruct (decide (t ∈ l)) as [Hin|Hout].
      * by rewrite decide_True by by apply list_elem_of_further.
      * rewrite decide_False; [done|]. rewrite elem_of_cons.
        intros [?|?]; [congruence|done].
Qed.

Lemma occurrences_visited (lp : list (Rule * ConjunctiveClause)) (t : Term) :
  length (filter (λ x, x = t) (lp ≫= λ p, elements (terms p.2)))
  = length (filter (has_term t) lp).
Proof.
  induction lp as [|p lp IH]; [done|].
  rewrite bind_cons, filter_app, length_app, IH, filter_cons.
  rewrite occurrences_NoDup by apply NoDup_elements.
  unfold has_term at 2.
  destruct (decide (t ∈ terms p.2)) as [Hin|Hout].
  - by rewrite decide_True by by apply elem_of_elements.
  - by rewrite decide_False by by rewrite elem_of_elements.
Qed.

Lemma term_counts_count (ruleset : Ruleset) (t : Term) :
  get0 (_get_term_counts ruleset).2 t = Z.of_nat (clauses_using t ruleset).
Proof.
  unfold _get_term_counts, clauses_using. cbn [snd].
  rewrite count_fold_terms, count_terms_map. cbn [snd].
  unfold get0 at 1. rewrite lookup_empty. cbn [default]. unfold id.
  fold (clause_pairs ruleset). by rewrite occurrences_visited.
Qed.

Lemma elem_of_visited (ruleset : Ruleset) (t : Term) :
  t ∈ visited_terms ruleset
  ↔ ∃ r c, r ∈ rules ruleset ∧ c ∈ premise r ∧ t ∈ terms c.
Proof.
  unfold visited_terms. rewrite list_elem_of_bind. split.
  - intros ([r c] & Ht & Hp). apply elem_of_clause_pairs in Hp as [Hr Hc].
    apply elem_of_elements in Ht. by exists r, c.
  - intros (r & c & Hr & Hc & Ht). exists (r, c).
    split; [by apply elem_of_elements|by apply elem_of_clause_pairs].
Qed.

Lemma elem_of_insert_by {A : Type} (key : A → Z) (x z : A) (l : list A) :
  z ∈ insert_by key x l ↔ z = x ∨ z ∈ l.
Proof.
  induction l as [|y l IH]; cbn [insert_by].
  - by rewrite !elem_of_cons.
  - destruct (key x <=? key y).
    + by rewrite !elem_of_cons.
    + rewrite !elem_of_cons, IH. logic.
Qed.

Lemma insert_by_perm {A : Type} (key : A → Z) (x : A) (l : list A) :
  insert_by key x l ≡ₚ x :: l.
Proof.
  induction l as [|y l IH]; cbn [insert_by]; [done|].
  destruct (key x <=? key y); [done|].
  rewrite IH. apply Permutation_swap.
Qed.

Lemma sorted_perm {A : Type} (key : A → Z) (l : list A) : sorted key l ≡ₚ l.
Proof.
  induction l as [|x l IH]; [done|].
  unfold sorted in *. cbn [foldr]. by rewrite insert_by_perm, IH.
Qed.

Lemma insert_by_sorted {A : Type} (key : A → Z) (x : A) (l : list A) :
  StronglySorted (λ a b, key a ≤ key b) l →
  StronglySorted (λ a b, key a ≤ key b) (insert_by key x l).
Proof.
  induction 1 as [|y l Hl IH Hy]; cbn [insert_by].
  - repeat constructor.
  - destruct (key x <=? key y) eqn:Hxy.
    + apply Z.leb_le in Hxy. constructor; [by constructor|].
      constructor; [done|]. eapply Forall_impl; [exact Hy|].
      intros z Hz. cbn in Hz. lia.
    + apply Z.leb_gt in Hxy. constructor; [done|].
      apply Forall_forall. intros z Hz.
      apply elem_of_insert_by in Hz as [->|Hz]; [lia|].
      by eapply Forall_forall in Hy.
Qed.

Lemma sorted_sorted {A : Type} (key : A → Z) (l : list A) :
  StronglySorted (λ a b, key a ≤ key b) (sorted key l).
Proof.
  induction l as [|x l IH]; [constructor|].
  unfold sorted in *. cbn [foldr]. by apply insert_by_sorted.
Qed.

Lemma ranking_perm (ruleset : Ruleset) :
  (_get_term_counts ruleset).1
  ≡ₚ elements (list_to_set (visited_terms ruleset) : gset Term).
Proof.
  unfold _get_term_counts. cbn [fst]. rewrite sorted_perm.
  rewrite count_fold_terms, count_terms_set. cbn [fst].
  by rewrite (right_id_L ∅ (∪)).
Qed.

Lemma elem_of_ranking (ruleset : Ruleset) (t : Term) :
  t ∈ (_get_term_counts ruleset).1 ↔ t ∈ visited_terms ruleset.
Proof. by rewrite ranking_perm, elem_of_elements, elem_of_list_to_set. Qed.

Lemma ranking_NoDup (ruleset : Ruleset) : NoDup (_get_term_counts ruleset).1.
Proof. rewrite ranking_perm. apply NoDup_elements. Qed.

Lemma StronglySorted_weaken {A : Type} (R1 R2 : A → A → Prop) (l : list A) :
  (∀ a b, R1 a b → R2 a b) → StronglySorted R1 l → StronglySorted R2 l.
Proof.
  intros HR. induction 1 as [|x l _ IH Hx]; constructor; [done|].
  eapply Forall_impl; [exact Hx|]. auto.
Qed.

Lemma ranking_sorted (ruleset : Ruleset) :
  StronglySorted
    (λ a b, get0 (_get_term_counts ruleset).2 b ≤ get0 (_get_term_counts ruleset).2 a)
    (_get_term_counts ruleset).1.
Proof.
  unfold _get_term_counts. cbn [fst snd].
  eapply StronglySorted_weaken; [|apply sorted_sorted].
  intros a b Hab. cbn in Hab. lia.
Qed.

Lemma clauses_using_pos (ruleset : Ruleset) (t : Term) :
  (0 < clauses_using t ruleset)%nat ↔ t ∈ visited_terms ruleset.
Proof.
  unfold clauses_using, visited_terms. rewrite list_elem_of_bind. split.
  - destruct (filter (has_term t) (clause_pairs ruleset)) as [|p l] eqn:Hf.
    { cbn. lia. }
    intros _. assert (Hp : p ∈ filter (has_term t) (clause_pairs ruleset)).
    { rewrite Hf. apply list_elem_of_here. }
    apply list_elem_of_filter in Hp as [Ht Hp].
    exists p. split; [by apply elem_of_elements|done].
  - intros (p & Ht & Hp). apply elem_of_elements in Ht.
    assert (Hin : p ∈ filter (has_term t) (clause_pairs ruleset)).
    { by apply list_elem_of_filter. }
    destruct (filter (has_term t) (clause_pairs ruleset)); [|cbn; lia].
    by apply elem_of_nil in Hin.
Qed.

(** The head of the ranking is used at least as often as any term. *)
Lemma ranking_head_max (ruleset : Ruleset) (t : Term) (rest : list Term) :
  (_get_term_counts ruleset).1 = t :: rest →
  ∀ t', get0 (_get_term_counts ruleset).2 t' ≤ get0 (_get_term_counts ruleset).2 t.
Proof.
  intros Hrank t'.
  pose proof (ranking_sorted ruleset) as Hs. rewrite Hrank in Hs.
  apply StronglySorted_inv in Hs as [_ Hall].
  destruct (decide (t' ∈ t :: rest)) as [Hin|Hout].
  - apply elem_of_cons in Hin as [->|Hin]; [lia|].
    by eapply Forall_forall in Hall.
  - rewrite !term_counts_count.
    rewrite <- Hrank, elem_of_ranking, <- clauses_using_pos in Hout. lia.
Qed.

(** ** The step budget is enough *)

Lemma sum_list_with_submseteq {A : Type} (f : A → nat) (l k : list A) :
  l ⊆+ k → (sum_list_with f l ≤ sum_list_with f k)%nat.
Proof. induction 1; cbn [sum_list_with]; lia. Qed.

Lemma sum_list_with_fmap {A B : Type} (f : B → nat) (g : A → B) (l : list A) :
  sum_list_with f (g <$> l) = sum_list_with (λ x, f (g x)) l.
Proof. induction l as [|x l IH]; [done|]. cbn. by rewrite IH. Qed.

Lemma sum_list_with_bind {A B : Type} (f : B → nat) (g : A → list B) (l : list A) :
  sum_list_with f (l ≫= g) = sum_list_with (λ x, sum_list_with f (g x)) l.
Proof.
  induction l as [|x l IH]; [done|].
  rewrite bind_cons, sum_list_with_app. cbn [sum_list_with]. by rewrite IH.
Qed.

Lemma sum_list_with_same {A : Type} (f g : A → nat) (l : list A) :
  (∀ x, f x = g x) → sum_list_with f l = sum_list_with g l.
Proof.
  intros Hfg. induction l as [|x l IH]; [done|].
  cbn [sum_list_with]. by rewrite IH, Hfg.
Qed.

Lemma sum_list_with_filter_split {A : Type} (f : A → nat) (P : A → Prop)
    `{!∀ x, Decision (P x)} (l : list A) :
  (sum_list_with f (filter P l) + sum_list_with f (filter (λ x, ¬ P x) l)
   = sum_list_with f l)%nat.
Proof.
  induction l as [|x l IH]; [done|].
  rewrite !filter_cons. destruct (decide (P x)) as [Hx|Hx].
  - rewrite decide_False by logic. cbn [sum_list_with]. lia.
  - rewrite decide_True by done. cbn [sum_list_with]. lia.
Qed.

Lemma sum_list_with_filter_succ {A : Type} (f g : A → nat) (P : A → Prop)
    `{!∀ x, Decision (P x)} (l : list A) :
  (∀ x, P x → f x = S (g x)) →
  (sum_list_with f (filter P l)
   = sum_list_with g (filter P l) + length (filter P l))%nat.
Proof.
  intros Hfg. induction l as [|x l IH]; [done|].
  rewrite filter_cons. destruct (decide (P x)) as [Hx|Hx]; [|exact IH].
  cbn [sum_list_with length]. rewrite IH, (Hfg x Hx). lia.
Qed.

Lemma ruleset_weight_pairs (ruleset : Ruleset) :
  ruleset_weight ruleset
  = sum_list_with (λ p, clause_weight p.2) (clause_pairs ruleset).
Proof.
  unfold ruleset_weight, clause_pairs. rewrite sum_list_with_bind.
  apply sum_list_with_same. intros r.
  unfold rule_weight. by rewrite sum_list_with_fmap.
Qed.

Lemma weight_list_to_set (l : list Rule) :
  (sum_list_with rule_weight (elements (list_to_set l : gset Rule))
   ≤ sum_list_with rule_weight l)%nat.
Proof.
  apply sum_list_with_submseteq, NoDup_submseteq; [apply NoDup_elements|].
  intros x Hx. by apply elem_of_elements, elem_of_list_to_set in Hx.
Qed.

Lemma weight_disjoint_of (p : Rule * ConjunctiveClause) :
  rule_weight (disjoint_of p) = clause_weight p.2.
Proof.
  unfold rule_weight, disjoint_of. cbn [premise].
  rewrite elements_singleton. cbn [sum_list_with]. lia.
Qed.

Lemma weight_contain_of (term : Term) (p : Rule * ConjunctiveClause) :
  has_term term p → clause_weight p.2 = S (rule_weight (contain_of term p)).
Proof.
  unfold has_term, rule_weight, contain_of. cbn [premise]. intros Hin.
  rewrite elements_singleton. cbn [sum_list_with].
  unfold clause_weight, strip_term. cbn [terms].
  rewrite size_difference by by apply singleton_subseteq_l.
  rewrite size_singleton.
  assert (size (terms p.2) ≠ 0)%nat; [|lia].
  intros Hz. apply size_empty_inv in Hz.
  rewrite Hz in Hin. by apply not_elem_of_empty in Hin.
Qed.

(** A split on a term that some clause holds lowers the weight of both
    parts. *)
Lemma partition_weight (ruleset : Ruleset) (term : Term) :
  term ∈ visited_terms ruleset →
  (ruleset_weight (_partition_ruleset ruleset term).1 < ruleset_weight ruleset)%nat
  ∧ (ruleset_weight (_partition_ruleset ruleset term).2 < ruleset_weight ruleset)%nat.
Proof.
  intros Hin. apply clauses_using_pos in Hin. unfold clauses_using in Hin.
  pose proof (sum_list_with_filter_split
                (λ p : Rule * ConjunctiveClause, clause_weight p.2)
                (has_term term) (clause_pairs ruleset)) as Hsplit.
  pose proof (sum_list_with_filter_succ
                (λ p : Rule * ConjunctiveClause, clause_weight p.2)
                (λ p, rule_weight (contain_of term p))
                (has_term term) (clause_pairs ruleset)
                (weight_contain_of term)) as Hsucc.
  rewrite (ruleset_weight_pairs ruleset).
  unfold ruleset_weight. rewrite partition_contain, partition_disjoint.
  split.
  - eapply Nat.le_lt_trans; [apply weight_list_to_set|].
    rewrite sum_list_with_fmap. lia.
  - eapply Nat.le_lt_trans; [apply weight_list_to_set|].
    rewrite sum_list_with_fmap.
    rewrite (sum_list_with_same _ (λ p, clause_weight p.2)); [lia|].
    intros p. apply weight_disjoint_of.
Qed.

Lemma ranking_head_visited (ruleset : Ruleset) (t : Term) (rest : list Term) :
  (_get_term_counts ruleset).1 = t :: rest → t ∈ visited_terms ruleset.
Proof.
  intros Hrank. apply elem_of_ranking. rewrite Hrank. apply list_elem_of_here.
Qed.

(** Any two budgets above the weight give the same result. *)
Lemma extract_fuel_irrelevant (dataset : option Dataset) (merge : bool) :
  ∀ fuel fuel' ruleset,
    (ruleset_weight ruleset < fuel)%nat →
    (ruleset_weight ruleset < fuel')%nat →
    extract_fuel fuel ruleset dataset merge
    = extract_fuel fuel' ruleset dataset merge.
Proof.
  induction fuel as [|fuel IH]; intros fuel' ruleset Hf Hf'; [lia|].
  destruct fuel' as [|fuel']; [lia|].
  cbn [extract_fuel].
  destruct (elements (rules ruleset)) as [|r1 [|r2 lr]]; [done|done|].
  destruct (_get_term_counts ruleset).1 as [|t rest] eqn:Hrank; [done|].
  apply ranking_head_visited in Hrank.
  destruct (partition_weight ruleset t Hrank) as [Hc Hd].
  rewrite (IH fuel' (_partition_ruleset ruleset t).1) by lia.
  by rewrite (IH fuel' (_partition_ruleset ruleset t).2) by lia.
Qed.

(** The equation of the recursive function, free of budgets. *)
Lemma extract_unfold (ruleset : Ruleset) (dataset : option Dataset) (merge : bool) :
  _extract_hierarchy_node ruleset dataset merge
  = match elements (rules ruleset) with
    | [] => Ok []
    | [rule] => Ok (base_case rule dataset merge)
    | _ =>
        match (_get_term_counts ruleset).1 with
        | [] => IndexError
        | next_term :: _ =>
            let parts := _partition_ruleset ruleset next_term in
            bind (_extract_hierarchy_node parts.1 dataset merge) (λ kids,
            bind (_extract_hierarchy_node parts.2 dataset merge) (λ rest,
            Ok (raw_node (_htmlify (render dataset next_term)) kids None
                  :: rest)))
        end
    end.
Proof.
  unfold _extract_hierarchy_node at 1. cbn [extract_fuel].
  destruct (elements (rules ruleset)) as [|r1 [|r2 lr]]; [done|done|].
  destruct (_get_term_counts ruleset).1 as [|t rest] eqn:Hrank; [done|].
  apply ranking_head_visited in Hrank.
  destruct (partition_weight ruleset t Hrank) as [Hc Hd].
  cbv zeta. unfold _extract_hierarchy_node.
  rewrite (extract_fuel_irrelevant dataset merge (ruleset_weight ruleset)
             (S (ruleset_weight (_partition_ruleset ruleset t).1))) by lia.
  by rewrite (extract_fuel_irrelevant dataset merge (ruleset_weight ruleset)
                (S (ruleset_weight (_partition_ruleset ruleset t).2))) by lia.
Qed.

(** The extraction always ends within its budget: it returns nodes or
    raises [IndexError]. *)
Lemma extract_terminates (dataset : option Dataset) (merge : bool) :
  ∀ fuel ruleset,
    (ruleset_weight ruleset < fuel)%nat →
    extract_fuel fuel ruleset dataset merge ≠ OutOfFuel.
Proof.
  induction fuel as [|fuel IH]; intros ruleset Hf; [lia|].
  cbn [extract_fuel].
  destruct (elements (rules ruleset)) as [|r1 [|r2 lr]]; [done|done|].
  destruct (_get_term_counts ruleset).1 as [|t rest] eqn:Hrank; [done|].
  apply ranking_head_visited in Hrank.
  destruct (partition_weight ruleset t Hrank) as [Hc Hd].
  pose proof (IH (_partition_ruleset ruleset t).1 ltac:(lia)) as H1.
  pose proof (IH (_partition_ruleset ruleset t).2 ltac:(lia)) as H2.
  cbv zeta.
  destruct (extract_fuel fuel (_partition_ruleset ruleset t).1 dataset merge);
    [|done|done].
  by destruct (extract_fuel fuel (_partition_ruleset ruleset t).2 dataset merge).
Qed.

Lemma extract_within_budget (ruleset : Ruleset) (dataset : option Dataset)
    (merge : bool) :
  _extract_hierarchy_node ruleset dataset merge ≠ OutOfFuel.
Proof. apply extract_terminates. lia. Qed.

Lemma hierarchy_tree_within_budget (ruleset : Ruleset)
    (dataset : option Dataset) (merge : bool) :
  ruleset_hierarchy_tree ruleset dataset merge ≠ OutOfFuel.
Proof.
  unfold ruleset_hierarchy_tree.
  pose proof (extract_within_budget ruleset dataset merge) as Hne.
  by destruct (_extract_hierarchy_node ruleset dataset merge).
Qed.

(** ** Partition of single-clause rule sets *)

Lemma elem_of_contain (ruleset : Ruleset) (term : Term) (x : Rule) :
  x ∈ rules (_partition_ruleset ruleset term).1
  ↔ ∃ r c, r ∈ rules ruleset ∧ c ∈ premise r ∧ term ∈ terms c
           ∧ x = contain_of term (r, c).
Proof.
  rewrite partition_contain, elem_of_list_to_set, list_elem_of_fmap. split.
  - intros ([r c] & -> & Hp). apply list_elem_of_filter in Hp as [Ht Hp].
    apply elem_of_clause_pairs in Hp as [Hr Hc]. by exists r, c.
  - intros (r & c & Hr & Hc & Ht & ->). exists (r, c). split; [done|].
    apply list_elem_of_filter. split; [done|by apply elem_of_clause_pairs].
Qed.

Lemma elem_of_disjoint (ruleset : Ruleset) (term : Term) (x : Rule) :
  x ∈ rules (_partition_ruleset ruleset term).2
  ↔ ∃ r c, r ∈ rules ruleset ∧ c ∈ premise r ∧ (term ∉ terms c)
           ∧ x = disjoint_of (r, c).
Proof.
  rewrite partition_disjoint, elem_of_list_to_set, list_elem_of_fmap. split.
  - intros ([r c] & -> & Hp). apply list_elem_of_filter in Hp as [Ht Hp].
    apply elem_of_clause_pairs in Hp as [Hr Hc]. by exists r, c.
  - intros (r & c & Hr & Hc & Ht & ->). exists (r, c). split; [done|].
    apply list_elem_of_filter. split; [done|by apply elem_of_clause_pairs].
Qed.

Lemma strip_term_inj (term : Term) (c1 c2 : ConjunctiveClause) :
  term ∈ terms c1 → term ∈ terms c2 →
  strip_term term c1 = strip_term term c2 → c1 = c2.
Proof.
  destruct c1 as [t1 f1 s1], c2 as [t2 f2 s2]. unfold strip_term. cbn.
  intros H1 H2 Heq. injection Heq as Ht -> ->. f_equal.
  apply set_eq. intros x. destruct (decide (x = term)) as [->|Hne]; [logic|].
  assert (Hx : x ∈ (t1 ∖ {[term]}) ↔ x ∈ (t2 ∖ {[term]})).
  { by rewrite Ht. }
  rewrite !elem_of_difference, !elem_of_singleton in Hx. logic.
Qed.

Lemma single_clause_rule (r : Rule) (c : ConjunctiveClause) :
  premise r = {[ c ]} → r = mkRule {[ c ]} (conclusion r).
Proof. destruct r as [pr co]. cbn. by intros ->. Qed.

Lemma NoDup_clause_pairs (ruleset : Ruleset) : NoDup (clause_pairs ruleset).
Proof.
  unfold clause_pairs. apply NoDup_bind; [| |apply NoDup_elements].
  - intros r1 r2 p _ _ H1 H2.
    apply list_elem_of_fmap in H1 as (c1 & -> & _).
    apply list_elem_of_fmap in H2 as (c2 & Heq & _). by injection Heq.
  - intros r _. apply NoDup_fmap_2; [|apply NoDup_elements].
    intros c1 c2 Heq. by injection Heq.
Qed.

Lemma length_filter_split {A : Type} (P : A → Prop) `{!∀ x, Decision (P x)}
    (l : list A) :
  (length (filter P l) + length (filter (λ x, ¬ P x) l) = length l)%nat.
Proof.
  induction l as [|x l IH]; [done|].
  rewrite !filter_cons. destruct (decide (P x)) as [Hx|Hx].
  - rewrite decide_False by logic. cbn [length]. lia.
  - rewrite decide_True by done. cbn [length]. lia.
Qed.

Lemma length_pairs_single (lr : list Rule) :
  Forall (λ r, ∃ c, premise r = {[ c ]}) lr →
  length (lr ≫= λ r, pair r <$> elements (premise r)) = length lr.
Proof.
  induction 1 as [|r lr [c Hc] _ IH]; [done|].
  rewrite bind_cons, length_app, IH, Hc, elements_singleton. done.
Qed.

Section SingleClause.
Variable ruleset : Ruleset.
Variable term : Term.
Hypothesis single : ∀ r, r ∈ rules ruleset → ∃ c, premise r = {[ c ]}.

Lemma single_pair (r : Rule) (c : ConjunctiveClause) :
  (r, c) ∈ clause_pairs ruleset → r ∈ rules ruleset ∧ premise r = {[ c ]}.
Proof using Type single.
  intros [Hr Hc]%elem_of_clause_pairs. split; [done|].
  destruct (single r Hr) as [c' Hc']. rewrite Hc' in Hc.
  apply elem_of_singleton in Hc as ->. done.
Qed.

Lemma single_disjoint_of (p : Rule * ConjunctiveClause) :
  p ∈ clause_pairs ruleset → disjoint_of p = p.1.
Proof using Type single.
  destruct p as [r c]. intros [_ Hc]%single_pair.
  unfold disjoint_of. cbn [fst snd]. symmetry. by apply single_clause_rule.
Qed.

Lemma single_pair_inj (p1 p2 : Rule * ConjunctiveClause) :
  p1 ∈ clause_pairs ruleset → p2 ∈ clause_pairs ruleset →
  conclusion p1.1 = conclusion p2.1 → p1.2 = p2.2 → p1 = p2.
Proof using Type single.
  destruct p1 as [r1 c1], p2 as [r2 c2]. cbn [fst snd].
  intros [_ H1]%single_pair [_ H2]%single_pair Hco <-. f_equal.
  rewrite (single_clause_rule r1 c1 H1), (single_clause_rule r2 c1 H2).
  by rewrite Hco.
Qed.

Lemma single_contain_inj (p1 p2 : Rule * ConjunctiveClause) :
  p1 ∈ filter (has_term term) (clause_pairs ruleset) →
  p2 ∈ filter (has_term term) (clause_pairs ruleset) →
  contain_of term p1 = contain_of term p2 → p1 = p2.
Proof using Type single.
  intros [Ht1 Hp1]%list_elem_of_filter [Ht2 Hp2]%list_elem_of_filter Heq.
  pose proof (f_equal premise Heq) as Hpr.
  pose proof (f_equal conclusion Heq) as Hco.
  unfold contain_of in Hpr, Hco. cbn [premise conclusion] in Hpr, Hco.
  apply single_pair_inj; [done|done|done|].
  apply (strip_term_inj term); [done|done|].
  assert (Hin : strip_term term p1.2 ∈ ({[ strip_term term p2.2 ]} : gset _)).
  { rewrite <- Hpr. by apply elem_of_singleton. }
  by apply elem_of_singleton in Hin.
Qed.

Lemma single_disjoint_inj (p1 p2 : Rule * ConjunctiveClause) :
  p1 ∈ filter (λ p, ¬ has_term term p) (clause_pairs ruleset) →
  p2 ∈ filter (λ p, ¬ has_term term p) (clause_pairs ruleset) →
  disjoint_of p1 = disjoint_of p2 → p1 = p2.
Proof using Type single.
  intros [_ Hp1]%list_elem_of_filter [_ Hp2]%list_elem_of_filter Heq.
  pose proof (f_equal premise Heq) as Hpr.
  pose proof (f_equal conclusion Heq) as Hco.
  unfold disjoint_of in Hpr, Hco. cbn [premise conclusion] in Hpr, Hco.
  apply single_pair_inj; [done|done|done|].
  assert (Hin : p1.2 ∈ ({[ p2.2 ]} : gset ConjunctiveClause)).
  { rewrite <- Hpr. by apply elem_of_singleton. }
  by apply elem_of_singleton in Hin.
Qed.

Lemma single_partition_size :
  (size (rules (_partition_ruleset ruleset term).1)
   + size (rules (_partition_ruleset ruleset term).2)
   = size (rules ruleset))%nat.
Proof using Type single.
  rewrite partition_contain, partition_disjoint.
  rewrite !size_list_to_set.
  - rewrite !length_fmap, length_filter_split.
    unfold clause_pairs. rewrite length_pairs_single; [done|].
    apply Forall_forall. intros r Hr. by apply single, elem_of_elements.
  - apply NoDup_fmap_2_strong; [|apply NoDup_filter, NoDup_clause_pairs].
    apply single_disjoint_inj.
  - apply NoDup_fmap_2_strong; [|apply NoDup_filter, NoDup_clause_pairs].
    apply single_contain_inj.
Qed.

End SingleClause.

(** C1.  On a rule set whose premises all have exactly one clause, the
    partition on a term sends every rule to exactly one output: a rule
    whose clause holds the term goes to the first output with the term
    removed from the clause (same confidence, score and conclusion), any
    other rule goes to the second output as it is; every member of an
    output comes from one rule, two rules never meet in one member, and
    the sizes of the outputs add up to the size of the input. *)
Theorem partition_single_clause (ruleset : Ruleset) (term : Term) :
  (∀ r, r ∈ rules ruleset → ∃ c, premise r = {[ c ]}) →
  let contain_ruleset := (_partition_ruleset ruleset term).1 in
  let disjoint_ruleset := (_partition_ruleset ruleset term).2 in
  (∀ r c, r ∈ rules ruleset → premise r = {[ c ]} → term ∈ terms c →
     mkRule {[ mkClause (terms c ∖ {[ term ]}) (confidence c) (clause_score c) ]}
            (conclusion r) ∈ rules contain_ruleset
     ∧ r ∉ rules disjoint_ruleset)
  ∧ (∀ r c, r ∈ rules ruleset → premise r = {[ c ]} → term ∉ terms c →
       r ∈ rules disjoint_ruleset)
  ∧ (∀ x, x ∈ rules contain_ruleset →
       ∃ r c, r ∈ rules ruleset ∧ premise r = {[ c ]} ∧ term ∈ terms c
              ∧ x = contain_of term (r, c))
  ∧ (∀ x, x ∈ rules disjoint_ruleset →
       x ∈ rules ruleset ∧ ∃ c, premise x = {[ c ]} ∧ term ∉ terms c)
  ∧ (∀ r1 c1 r2 c2,
       r1 ∈ rules ruleset → premise r1 = {[ c1 ]} → term ∈ terms c1 →
       r2 ∈ rules ruleset → premise r2 = {[ c2 ]} → term ∈ terms c2 →
       contain_of term (r1, c1) = contain_of term (r2, c2) → r1 = r2)
  ∧ (size (rules contain_ruleset) + size (rules disjoint_ruleset)
     = size (rules ruleset))%nat.
Proof.
  intros single contain_ruleset disjoint_ruleset.
  assert (Hd : ∀ x, x ∈ rules disjoint_ruleset →
                    x ∈ rules ruleset ∧ ∃ c, premise x = {[ c ]} ∧ term ∉ terms c).
  { intros x (r & c & Hr & Hc & Ht & ->)%elem_of_disjoint.
    assert (Hp : (r, c) ∈ clause_pairs ruleset) by by apply elem_of_clause_pairs.
    rewrite (single_disjoint_of ruleset single (r, c) Hp). cbn [fst].
    split; [done|]. exists c. split; [|done].
    by apply (single_pair ruleset single). }
  split; [|split; [|split; [|split; [|split]]]].
  - intros r c Hr Hc Ht. split.
    + apply elem_of_contain. exists r, c.
      rewrite Hc. by rewrite elem_of_singleton.
    + intros Hin. apply Hd in Hin as (_ & c' & Hc' & Ht').
      rewrite Hc in Hc'.
      assert (Hin : c ∈ ({[ c' ]} : gset ConjunctiveClause)).
      { rewrite <- Hc'. by apply elem_of_singleton. }
      apply elem_of_singleton in Hin as ->. done.
  - intros r c Hr Hc Ht. apply elem_of_disjoint. exists r, c.
    rewrite Hc, elem_of_singleton. repeat split; [done|done|].
    unfold disjoint_of. cbn [fst snd]. by apply single_clause_rule.
  - intros x (r & c & Hr & Hc & Ht & ->)%elem_of_contain.
    exists r, c. repeat split; [done| |done].
    apply (single_pair ruleset single). by apply elem_of_clause_pairs.
  - apply Hd.
  - intros r1 c1 r2 c2 Hr1 Hc1 Ht1 Hr2 Hc2 Ht2 Heq.
    assert (Hp : (r1, c1) = (r2, c2)); [|by injection Hp].
    apply (single_contain_inj ruleset term single); [| |done].
    + apply list_elem_of_filter. split; [done|].
      apply elem_of_clause_pairs. by rewrite Hc1, elem_of_singleton.
    + apply list_elem_of_filter. split; [done|].
      apply elem_of_clause_pairs. by rewrite Hc2, elem_of_singleton.
  - by apply single_partition_size.
Qed.

(** A rule without clauses reaches neither output of the partition: the
    loop over its premise has nothing to visit. *)
Lemma partition_drops_empty_premise (ruleset : Ruleset) (term : Term) (r : Rule) :
  premise r = ∅ →
  (r ∉ rules (_partition_ruleset ruleset term).1)
  ∧ (r ∉ rules (_partition_ruleset ruleset term).2).
Proof.
  intros Hr. split.
  - intros (r' & c & _ & _ & _ & ->)%elem_of_contain.
    unfold contain_of in Hr. cbn [premise] in Hr.
    assert (Hin : strip_term term c ∈ (∅ : gset ConjunctiveClause)).
    { rewrite <- Hr. by apply elem_of_singleton. }
    by apply not_elem_of_empty in Hin.
  - intros (r' & c & _ & _ & _ & ->)%elem_of_disjoint.
    unfold disjoint_of in Hr. cbn [premise] in Hr.
    assert (Hin : c ∈ (∅ : gset ConjunctiveClause)).
    { rewrite <- Hr. by apply elem_of_singleton. }
    by apply not_elem_of_empty in Hin.
Qed.

(** ** The ranking and the split *)

Lemma term_counts_dom (ruleset : Ruleset) (t : Term) :
  (_get_term_counts ruleset).2 !! t = None ↔ t ∉ (_get_term_counts ruleset).1.
Proof.
  rewrite elem_of_ranking. unfold _get_term_counts. cbn [snd].
  rewrite count_fold_terms, count_terms_dom. cbn [snd].
  fold (clause_pairs ruleset). fold (visited_terms ruleset).
  rewrite lookup_empty. logic.
Qed.

Lemma using_one_rule (t : Term) (r : Rule) :
  (size (premise r) ≤ 1)%nat →
  length (filter (has_term t) (pair r <$> elements (premise r)))
  = if decide (uses_term t r) then 1%nat else 0%nat.
Proof.
  unfold uses_term. intros Hsize.
  destruct (decide (set_Exists (λ c, t ∈ terms c) (premise r))) as [Hex|Hnex];
    rewrite set_Exists_elements in *; unfold size, set_size in Hsize;
    cbn in Hsize; destruct (elements (premise r)) as [|c [|c' l]];
    cbn in Hsize; try lia.
  - by apply Exists_nil in Hex.
  - apply Exists_cons in Hex as [Hc|Hex]; [|by apply Exists_nil in Hex].
    rewrite fmap_cons, filter_cons. by rewrite decide_True by done.
  - done.
  - rewrite fmap_cons, filter_cons. rewrite decide_False; [done|].
    intros Hc. apply Hnex. by left.
Qed.

Lemma clauses_using_single (ruleset : Ruleset) (t : Term) :
  (∀ r, r ∈ rules ruleset → (size (premise r) ≤ 1)%nat) →
  clauses_using t ruleset = rules_using t ruleset.
Proof.
  intros Hsingle. unfold clauses_using, rules_using, clause_pairs.
  assert (Hall : Forall (λ r, (size (premise r) ≤ 1)%nat) (elements (rules ruleset))).
  { apply Forall_forall. intros r Hr. by apply Hsingle, elem_of_elements. }
  induction Hall as [|r lr Hr _ IH]; [done|].
  rewrite bind_cons, filter_app, length_app, IH, using_one_rule by done.
  rewrite filter_cons. by destruct (decide (uses_term t r)).
Qed.

(** C5, as amended.  The ranking lists, without repetition, the terms of
    the clauses of the rules, in descending order of their count; the
    count of a term is the number of clauses, over all rules, that hold
    it, which is the number of rules using it when no premise has more
    than one clause; terms that are not used have no entry; and in its
    recursive case the extractor splits on the first term of the ranking,
    whose count is the largest. *)
Theorem term_ranking (ruleset : Ruleset) :
  let used_terms := (_get_term_counts ruleset).1 in
  let count := get0 (_get_term_counts ruleset).2 in
  NoDup used_terms
  ∧ (∀ t, t ∈ used_terms
          ↔ ∃ r c, r ∈ rules ruleset ∧ c ∈ premise r ∧ t ∈ terms c)
  ∧ StronglySorted (λ a b, count b ≤ count a) used_terms
  ∧ (∀ t, count t = Z.of_nat (clauses_using t ruleset))
  ∧ (∀ t, (_get_term_counts ruleset).2 !! t = None ↔ t ∉ used_terms)
  ∧ ((∀ r, r ∈ rules ruleset → (size (premise r) ≤ 1)%nat) →
     ∀ t, count t = Z.of_nat (rules_using t ruleset))
  ∧ (∀ dataset merge next_term rest,
       (2 ≤ size (rules ruleset))%nat →
       used_terms = next_term :: rest →
       (∀ t, count t ≤ count next_term)
       ∧ _extract_hierarchy_node ruleset dataset merge
         = bind (_extract_hierarchy_node
                   (_partition_ruleset ruleset next_term).1 dataset merge)
             (λ kids,
               bind (_extract_hierarchy_node
                       (_partition_ruleset ruleset next_term).2 dataset merge)
                 (λ siblings,
                   Ok (raw_node (_htmlify (render dataset next_term)) kids None
                         :: siblings)))).
Proof.
  intros used_terms count. subst used_terms count.
  split; [apply ranking_NoDup|].
  split; [intros t; by rewrite elem_of_ranking, elem_of_visited|].
  split; [apply ranking_sorted|].
  split; [apply term_counts_count|].
  split; [apply term_counts_dom|].
  split.
  - intros Hsingle t. rewrite term_counts_count.
    by rewrite clauses_using_single.
  - intros dataset merge next_term rest Hsize Hrank.
    split; [by eapply ranking_head_max|].
    rewrite extract_unfold. unfold size, set_size in Hsize. cbn in Hsize.
    destruct (elements (rules ruleset)) as [|r1 [|r2 lr]]; cbn in Hsize;
      [lia|lia|].
    by rewrite Hrank.
Qed.

(** ** The base case *)

(** [node] heads a chain with one node per name, each with exactly one
    child, the last one holding [leaf]. *)
Fixpoint is_chain (names : list string) (leaf node : Node) : Prop :=
  match names with
  | [] => False
  | [n] => node = raw_node n [leaf] None
  | n :: rest =>
      ∃ next, node = raw_node n [next] None ∧ is_chain rest leaf next
  end.

Lemma chain_is_chain (dataset : option Dataset) (t : Term) (ts : list Term)
    (leaf : Node) :
  ∃ first,
    chain dataset (t :: ts) leaf = [first]
    ∧ is_chain (map (λ x, _htmlify (render dataset x)) (t :: ts)) leaf first.
Proof.
  revert t. induction ts as [|t' ts IH]; intros t.
  - eexists. split; reflexivity.
  - destruct (IH t') as (next & Hnext & Hchain).
    exists (raw_node (_htmlify (render dataset t)) [next] None). split.
    + unfold chain in *. cbn [foldr] in *. by rewrite Hnext.
    + cbn [map is_chain] in *. by exists next.
Qed.

Lemma extract_single (ruleset : Ruleset) (rule : Rule)
    (dataset : option Dataset) (merge : bool) :
  rules ruleset = {[ rule ]} →
  _extract_hierarchy_node ruleset dataset merge
  = Ok (base_case rule dataset merge).
Proof.
  intros Hr. rewrite extract_unfold, Hr, elements_singleton. done.
Qed.

(** C9.  The base case on the single rule [rule]: the leaf carries the
    score of the rule's clause, or zero when the premise has no clause;
    remaining terms give one node named by the terms joined with
    [" AND "] above the leaf when merging, and a chain of one node per
    term down to the leaf otherwise; with no remaining term the leaf
    comes alone. *)
Theorem base_case_shape (ruleset : Ruleset) (rule : Rule)
    (dataset : option Dataset) (merge : bool) :
  rules ruleset = {[ rule ]} →
  let leaf := λ s, raw_node (_htmlify (str_conclusion (conclusion rule))) [] (Some s) in
  let result := _extract_hierarchy_node ruleset dataset merge in
  (premise rule = ∅ → result = Ok [leaf score_zero])
  ∧ (∀ c, premise rule = {[ c ]} →
       let ts := elements (terms c) in
       (terms c = ∅ → result = Ok [leaf (clause_score c)])
       ∧ (terms c ≠ ∅ → merge = true →
          result
          = Ok [raw_node
                  (_htmlify (String.concat " AND " (map (render dataset) ts)))
                  [leaf (clause_score c)] None])
       ∧ (terms c ≠ ∅ → merge = false →
          ∃ first,
            result = Ok [first]
            ∧ is_chain (map (λ x, _htmlify (render dataset x)) ts)
                       (leaf (clause_score c)) first)).
Proof.
  intros Hr leaf result. subst result leaf.
  rewrite (extract_single ruleset rule dataset merge Hr).
  unfold base_case. split.
  - intros ->. by rewrite elements_empty.
  - intros c ->. rewrite elements_singleton. cbn [head]. cbv beta iota zeta.
    split; [|split].
    + intros ->. by rewrite elements_empty.
    + intros Hne ->.
      destruct (elements (terms c)) as [|t ts] eqn:Hts; [|done].
      by apply elements_empty_inv, leibniz_equiv in Hts.
    + intros Hne ->.
      destruct (elements (terms c)) as [|t ts] eqn:Hts.
      { by apply elements_empty_inv, leibniz_equiv in Hts. }
      edestruct (chain_is_chain dataset t ts) as (first & Hfirst & Hchain).
      exists first. split; [f_equal; exact Hfirst|exact Hchain].
Qed.

(** ** The annotated tree *)

Lemma compute_root_name (nm : string) (ch : list Node) (sc : option Score)
    (d nd : option Z) (cc : option (gmap string Z)) (merge : bool) :
  name (_compute_tree_properties (mkNode nm ch sc d nd cc) 0 merge) = nm.
Proof. by destruct ch. Qed.

Lemma hierarchy_tree_annotated (ruleset : Ruleset) (dataset : option Dataset)
    (merge : bool) (tree : Node) :
  ruleset_hierarchy_tree ruleset dataset merge = Ok tree →
  ∃ kids, tree = _compute_tree_properties (raw_node "ruleset" kids None) 0 merge.
Proof.
  unfold ruleset_hierarchy_tree.
  destruct (_extract_hierarchy_node ruleset dataset merge) as [kids| |];
    cbn [bind]; [|done|done].
  intros [= <-]. by exists kids.
Qed.

(** C6.  In the tree that [ruleset_hierarchy_tree] returns, a node
    without children has zero descendants, the count of any node is the
    sum over its children of their count plus one, and so it is the
    number of nodes strictly below the node. *)
Theorem num_descendants_invariant (ruleset : Ruleset)
    (dataset : option Dataset) (merge : bool) (tree : Node) :
  ruleset_hierarchy_tree ruleset dataset merge = Ok tree →
  every_node descendants_ok tree.
Proof.
  intros (kids & ->)%hierarchy_tree_annotated.
  eapply every_node_impl; [|apply compute_ok]. by intros n (? & _ & _).
Qed.

(** C7.  In the tree that [ruleset_hierarchy_tree] returns, a node
    without children counts its own name once, any other node holds the
    key-wise sum of the counts of its children, and the counts of a node
    add up to the number of leaves below it. *)
Theorem class_counts_invariant (ruleset : Ruleset)
    (dataset : option Dataset) (merge : bool) (tree : Node) :
  ruleset_hierarchy_tree ruleset dataset merge = Ok tree →
  every_node class_counts_ok tree.
Proof.
  intros (kids & ->)%hierarchy_tree_annotated.
  eapply every_node_impl; [|apply compute_ok]. by intros n (_ & _ & ?).
Qed.

(** C8.  The tree that [ruleset_hierarchy_tree] returns has the root
    ["ruleset"] at depth zero, and the depth of every child is one more
    than the depth of its parent. *)
Theorem depth_invariant (ruleset : Ruleset)
    (dataset : option Dataset) (merge : bool) (tree : Node) :
  ruleset_hierarchy_tree ruleset dataset merge = Ok tree →
  name tree = "ruleset" ∧ depth tree = Some 0 ∧ every_node depth_ok tree.
Proof.
  intros (kids & ->)%hierarchy_tree_annotated.
  split; [apply compute_root_name|]. split; [apply compute_depth|].
  eapply every_node_impl; [|apply compute_ok]. by intros n (_ & ? & _).
Qed.

(** C10.  For a rule set without rules the result is the root alone, which
    the annotation treats as a leaf. *)
Theorem empty_ruleset_tree (fn ocn : list string) (reg : bool)
    (dataset : option Dataset) (merge : bool) :
  ruleset_hierarchy_tree (mkRuleset ∅ fn ocn reg) dataset merge
  = Ok (mkNode "ruleset" [] None (Some 0) (Some 0) (Some {[ "ruleset" := 1 ]})).
Proof.
  unfold ruleset_hierarchy_tree. rewrite extract_unfold. cbn [rules].
  by rewrite elements_empty.
Qed.

(** The annotation keeps names and shape when it is called as
    [ruleset_hierarchy_tree] calls it: nothing is collapsed at depth zero,
    and below the flag is off. *)
Fixpoint skeleton (t : Node) : Node :=
  match t with
  | mkNode nm ch sc _ _ _ => raw_node nm (map skeleton ch) sc
  end.

Lemma skeleton_no_merge (tree : Node) :
  ∀ d, skeleton (_compute_tree_properties tree d false) = skeleton tree.
Proof.
  induction tree as [nm ch sc d0 nd cc IH] using Node_children_ind.
  intros d. destruct ch as [|c ch]; [done|].
  rewrite compute_no_merge. unfold annotated. cbn [skeleton]. f_equal.
  rewrite map_map. apply map_ext_Forall.
  eapply Forall_impl; [exact IH|]. auto.
Qed.

Lemma skeleton_root (tree : Node) (merge : bool) :
  skeleton (_compute_tree_properties tree 0 merge) = skeleton tree.
Proof.
  destruct tree as [nm [|c ch] sc d0 nd cc]; [done|].
  cbn [_compute_tree_properties]. cbn [Z.eqb negb andb skeleton]. f_equal.
  rewrite map_map. apply map_ext. intros k. apply skeleton_no_merge.
Qed.

(** ** Leaves and rules *)

(** The names of the leaves of a tree, from left to right; a leaf is a
    node without children that has a score. *)
Fixpoint leaf_names (t : Node) : list string :=
  match t with
  | mkNode nm ch sc _ _ _ =>
      match ch, sc with
      | [], Some _ => [nm]
      | _, _ => concat (map leaf_names ch)
      end
  end.

Definition forest_leaves (l : list Node) : list string :=
  concat (map leaf_names l).

(** The name of the leaf that stands for a rule. *)
Definition conclusion_name (r : Rule) : string :=
  _htmlify (str_conclusion (conclusion r)).

Lemma leaf_names_inner (nm : string) (ch : list Node)
    (d nd : option Z) (cc : option (gmap string Z)) :
  leaf_names (mkNode nm ch None d nd cc) = forest_leaves ch.
Proof. by destruct ch. Qed.

Lemma leaf_names_skeleton (t : Node) : leaf_names (skeleton t) = leaf_names t.
Proof.
  induction t as [nm ch sc d nd cc IH] using Node_children_ind.
  cbn [skeleton]. unfold raw_node.
  assert (Hch : concat (map leaf_names (map skeleton ch))
                = concat (map leaf_names ch)).
  { rewrite map_map. f_equal. by apply map_ext_Forall. }
  destruct ch as [|c ch]; [done|].
  cbn [leaf_names] in *. by destruct sc.
Qed.

Lemma chain_leaves (dataset : option Dataset) (ts : list Term) (leaf : Node) :
  forest_leaves (chain dataset ts leaf) = leaf_names leaf.
Proof.
  induction ts as [|t ts IH].
  - unfold forest_leaves. cbn. apply app_nil_r.
  - unfold chain, raw_node in *. cbn [foldr]. unfold forest_leaves at 1.
    cbn [map concat]. rewrite leaf_names_inner, IH.
    apply app_nil_r.
Qed.

Lemma base_case_leaves (rule : Rule) (dataset : option Dataset) (merge : bool) :
  forest_leaves (base_case rule dataset merge) = [conclusion_name rule].
Proof.
  unfold base_case.
  destruct (head (elements (premise rule))) as [c|]; [|done].
  destruct (elements (terms c)) as [|t ts]; [done|].
  destruct merge; [done|]. by rewrite chain_leaves.
Qed.

Lemma partition_outputs_single (ruleset : Ruleset) (term : Term) (x : Rule) :
  x ∈ rules (_partition_ruleset ruleset term).1
  ∨ x ∈ rules (_partition_ruleset ruleset term).2 →
  ∃ c, premise x = {[ c ]}.
Proof.
  intros [(r & c & _ & _ & _ & ->)%elem_of_contain
         |(r & c & _ & _ & _ & ->)%elem_of_disjoint]; by eexists.
Qed.

Lemma pairs_conclusions (lr : list Rule) :
  Forall (λ r, ∃ c, premise r = {[ c ]}) lr →
  (λ p : Rule * ConjunctiveClause, conclusion p.1)
    <$> (lr ≫= λ r, pair r <$> elements (premise r))
  = conclusion <$> lr.
Proof.
  induction 1 as [|r lr [c Hc] _ IH]; [done|].
  rewrite bind_cons, fmap_app, IH, Hc, elements_singleton. done.
Qed.

(** On single-clause rule sets the conclusions of the two parts are the
    conclusions of the whole, each as often. *)
Lemma partition_conclusions (ruleset : Ruleset) (term : Term) :
  (∀ r, r ∈ rules ruleset → ∃ c, premise r = {[ c ]}) →
  (conclusion <$> elements (rules (_partition_ruleset ruleset term).1))
    ++ (conclusion <$> elements (rules (_partition_ruleset ruleset term).2))
  ≡ₚ conclusion <$> elements (rules ruleset).
Proof.
  intros single. rewrite partition_contain, partition_disjoint.
  rewrite !elements_list_to_set.
  - rewrite <- !list_fmap_compose.
    rewrite <- fmap_app, filter_app_complement.
    unfold clause_pairs. rewrite <- pairs_conclusions; [done|].
    apply Forall_forall. intros r Hr. by apply single, elem_of_elements.
  - apply NoDup_fmap_2_strong; [|apply NoDup_filter, NoDup_clause_pairs].
    by apply single_disjoint_inj.
  - apply NoDup_fmap_2_strong; [|apply NoDup_filter, NoDup_clause_pairs].
    by apply single_contain_inj.
Qed.

Lemma extract_fuel_leaves (dataset : option Dataset) (merge : bool) :
  ∀ fuel ruleset nodes,
    (∀ r, r ∈ rules ruleset → ∃ c, premise r = {[ c ]}) →
    extract_fuel fuel ruleset dataset merge = Ok nodes →
    forest_leaves nodes ≡ₚ conclusion_name <$> elements (rules ruleset).
Proof.
  induction fuel as [|fuel IH]; intros ruleset nodes single; [done|].
  cbn [extract_fuel].
  pose proof (partition_conclusions ruleset) as Hparts.
  destruct (elements (rules ruleset)) as [|r1 [|r2 lr]] eqn:Hrules.
  - by intros [= <-].
  - intros [= <-]. by rewrite base_case_leaves.
  - destruct (_get_term_counts ruleset).1 as [|t rest]; [done|].
    cbv zeta.
    destruct (extract_fuel fuel (_partition_ruleset ruleset t).1 dataset merge)
      as [kids| |] eqn:Hkids; [|done|done].
    destruct (extract_fuel fuel (_partition_ruleset ruleset t).2 dataset merge)
      as [siblings| |] eqn:Hsib; [|done|done].
    cbn [bind]. intros [= <-].
    apply IH in Hkids; [|intros; eapply partition_outputs_single; eauto].
    apply IH in Hsib; [|intros; eapply partition_outputs_single; eauto].
    unfold forest_leaves at 1. cbn [map concat]. unfold raw_node.
    rewrite leaf_names_inner. fold (forest_leaves siblings).
    rewrite Hkids, Hsib.
    unfold conclusion_name.
    change (λ r, _htmlify (str_conclusion (conclusion r)))
      with ((λ c, _htmlify (str_conclusion c)) ∘ conclusion).
    rewrite !list_fmap_compose, <- fmap_app.
    by rewrite (Hparts t single).
Qed.

(** X18.  Whenever a tree is returned for a single-clause rule set, its
    leaves are the conclusions of the rules, each as often as it is
    concluded. *)
Lemma leaves_when_returned (ruleset : Ruleset) (dataset : option Dataset)
    (merge : bool) (tree : Node) :
  (∀ r, r ∈ rules ruleset → ∃ c, premise r = {[ c ]}) →
  ruleset_hierarchy_tree ruleset dataset merge = Ok tree →
  leaf_names tree ≡ₚ conclusion_name <$> elements (rules ruleset)
  ∧ length (leaf_names tree) = size (rules ruleset).
Proof.
  intros single Htree.
  assert (Hperm : leaf_names tree
                  ≡ₚ conclusion_name <$> elements (rules ruleset)).
  { unfold ruleset_hierarchy_tree, _extract_hierarchy_node in Htree.
    destruct (extract_fuel _ ruleset dataset merge) as [kids| |] eqn:Hkids;
      [|done|done].
    assert (Heq : tree = _compute_tree_properties
                           (raw_node "ruleset" kids None) 0 merge).
    { unfold bind in Htree. congruence. }
    rewrite Heq. clear Heq Htree.
    rewrite <- leaf_names_skeleton, skeleton_root, leaf_names_skeleton.
    unfold raw_node. rewrite leaf_names_inner.
    by eapply extract_fuel_leaves. }
  split; [done|]. by rewrite Hperm, length_fmap.
Qed.

(** ** Further properties of the partition *)

(** X3.  The two outputs of the partition, for any rule set: the first
    holds, for every clause with the term, a one-clause rule with the
    term removed; the second holds, for every other clause, a one-clause
    rule with that clause. *)
Theorem partition_membership (ruleset : Ruleset) (term : Term) (x : Rule) :
  (x ∈ rules (_partition_ruleset ruleset term).1
   ↔ ∃ r c, r ∈ rules ruleset ∧ c ∈ premise r ∧ term ∈ terms c
            ∧ x = mkRule {[ mkClause (terms c ∖ {[ term ]}) (confidence c)
                                     (clause_score c) ]}
                         (conclusion r))
  ∧ (x ∈ rules (_partition_ruleset ruleset term).2
     ↔ ∃ r c, r ∈ rules ruleset ∧ c ∈ premise r ∧ (term ∉ terms c)
              ∧ x = mkRule {[ c ]} (conclusion r)).
Proof. split; [apply elem_of_contain|apply elem_of_disjoint]. Qed.

(** X4.  Whatever the input, every rule of either output has exactly one
    clause, and that clause does not hold the term. *)
Theorem partition_outputs_shape (ruleset : Ruleset) (term : Term) (x : Rule) :
  x ∈ rules (_partition_ruleset ruleset term).1
  ∨ x ∈ rules (_partition_ruleset ruleset term).2 →
  ∃ c, premise x = {[ c ]} ∧ term ∉ terms c.
Proof.
  intros [(r & c & _ & _ & Ht & ->)%elem_of_contain
         |(r & c & _ & _ & Ht & ->)%elem_of_disjoint].
  - exists (strip_term term c). split; [done|].
    unfold strip_term. cbn [terms].
    rewrite elem_of_difference, elem_of_singleton. logic.
  - by exists c.
Qed.

(** X5.  Splitting on a term that no clause holds leaves the first output
    empty; on a single-clause rule set the second output is then the
    input. *)
Theorem partition_unused_term (ruleset : Ruleset) (term : Term) :
  (∀ r c, r ∈ rules ruleset → c ∈ premise r → term ∉ terms c) →
  rules (_partition_ruleset ruleset term).1 = ∅
  ∧ ((∀ r, r ∈ rules ruleset → ∃ c, premise r = {[ c ]}) →
     rules (_partition_ruleset ruleset term).2 = rules ruleset).
Proof.
  intros Hunused. split.
  - apply set_eq. intros x. split; [|by intros ?%not_elem_of_empty].
    intros (r & c & Hr & Hc & Ht & _)%elem_of_contain.
    by destruct (Hunused r c Hr Hc).
  - intros single. apply set_eq. intros x. rewrite elem_of_disjoint. split.
    + intros (r & c & Hr & Hc & _ & ->).
      destruct (single r Hr) as [c' Hc']. rewrite Hc' in Hc.
      apply elem_of_singleton in Hc as ->.
      unfold disjoint_of. cbn [fst snd].
      by rewrite <- (single_clause_rule r c' Hc').
    + intros Hx. destruct (single x Hx) as [c Hc]. exists x, c.
      split; [done|]. split; [rewrite Hc; by apply elem_of_singleton|].
      split; [apply (Hunused x c Hx); rewrite Hc; by apply elem_of_singleton|].
      unfold disjoint_of. cbn [fst snd]. by apply single_clause_rule.
Qed.

(** ** Further properties of the ranking *)

(** X6.  The ranking is empty exactly when no clause of any rule has a
    term, and then the count mapping is empty too. *)
Theorem ranking_empty_iff (ruleset : Ruleset) :
  ((_get_term_counts ruleset).1 = []
   ↔ ∀ r c, r ∈ rules ruleset → c ∈ premise r → terms c = ∅)
  ∧ ((_get_term_counts ruleset).1 = [] → (_get_term_counts ruleset).2 = ∅).
Proof.
  assert (Hnil : (_get_term_counts ruleset).1 = []
                 ↔ ∀ t, t ∉ visited_terms ruleset).
  { split.
    - intros Hrank t Ht. apply elem_of_ranking in Ht.
      rewrite Hrank in Ht. by apply elem_of_nil in Ht.
    - intros Hnone. destruct (_get_term_counts ruleset).1 as [|t l] eqn:Hrank;
        [done|].
      destruct (Hnone t). apply elem_of_ranking. rewrite Hrank.
      apply list_elem_of_here. }
  split.
  - rewrite Hnil. split.
    + intros Hnone r c Hr Hc. apply set_eq. intros t.
      split; [|by intros ?%not_elem_of_empty].
      intros Ht. destruct (Hnone t). apply elem_of_visited. by exists r, c.
    + intros Hempty t (r & c & Hr & Hc & Ht)%elem_of_visited.
      rewrite (Hempty r c Hr Hc) in Ht. by apply not_elem_of_empty in Ht.
  - intros Hrank. apply map_eq. intros t. rewrite lookup_empty.
    apply term_counts_dom. rewrite Hrank. apply not_elem_of_nil.
Qed.

(** X7.  A term of the ranking is counted at least once and at most once
    per clause of the rule set. *)
Theorem count_bounds (ruleset : Ruleset) (t : Term) :
  t ∈ (_get_term_counts ruleset).1 →
  1 ≤ get0 (_get_term_counts ruleset).2 t
  ≤ Z.of_nat (length (clause_pairs ruleset)).
Proof.
  intros Ht. rewrite term_counts_count.
  apply elem_of_ranking, clauses_using_pos in Ht.
  pose proof (length_filter (has_term t) (clause_pairs ruleset)) as Hle.
  unfold clauses_using in *. lia.
Qed.

(** ** Further properties of the annotation pass *)

(** The two ways a call on a node with children can go. *)
Lemma compute_cases nm c ch sc d nd cc dp merge :
  _compute_tree_properties (mkNode nm (c :: ch) sc d nd cc) dp merge
  = annotated nm sc dp (c :: ch)
  ∨ (dp ≠ 0 ∧ merge = true ∧ ch = [] ∧ children c ≠ []
     ∧ _compute_tree_properties (mkNode nm (c :: ch) sc d nd cc) dp merge
       = annotated (nm +:+ " AND " +:+ name c) sc dp (children c)).
Proof.
  unfold annotated. cbn [_compute_tree_properties].
  destruct ((negb (dp =? 0) && (Nat.eqb (length (c :: ch)) 1) && merge
             && negb (Nat.eqb (length (children c)) 0))%bool) eqn:Hc;
    [right|by left].
  apply andb_true_iff in Hc as [Hc Hkids].
  apply andb_true_iff in Hc as [Hc ->].
  apply andb_true_iff in Hc as [Hdp Hlen].
  apply negb_true_iff, Z.eqb_neq in Hdp.
  destruct ch; [|done].
  split; [done|]. split; [done|]. split; [done|]. split; [|done].
  by destruct (children c).
Qed.

Lemma annotated_as_call nm sc dp c ch :
  annotated nm sc dp (c :: ch)
  = _compute_tree_properties (raw_node nm (c :: ch) sc) dp false.
Proof. unfold raw_node. by rewrite compute_no_merge. Qed.

(** X8.  Called at depth zero, as the entry point calls it, or with the
    flag off, the annotation keeps every name, every list of children and
    every score: it only adds the annotations. *)
Theorem annotation_keeps_shape (tree : Node) (dp : Z) (merge : bool) :
  skeleton (_compute_tree_properties tree 0 merge) = skeleton tree
  ∧ skeleton (_compute_tree_properties tree dp false) = skeleton tree.
Proof. split; [apply skeleton_root|apply skeleton_no_merge]. Qed.

(** X9.  Whatever the depth and the flag, the annotation keeps the leaves
    and their order: a collapse only removes a node that has children. *)
Theorem annotation_keeps_leaves (tree : Node) (dp : Z) (merge : bool) :
  leaf_names (_compute_tree_properties tree dp merge) = leaf_names tree.
Proof.
  assert (Hoff : ∀ t d, leaf_names (_compute_tree_properties t d false)
                        = leaf_names t).
  { intros t d. by rewrite <- leaf_names_skeleton, skeleton_no_merge,
                           leaf_names_skeleton. }
  destruct tree as [nm [|c ch] sc d nd cc]; [by destruct sc|].
  destruct (compute_cases nm c ch sc d nd cc dp merge)
    as [->|(_ & _ & -> & Hkids & ->)].
  - rewrite annotated_as_call, Hoff. done.
  - destruct (children c) as [|c' ch'] eqn:Hch; [done|].
    rewrite annotated_as_call, Hoff. unfold raw_node.
    cbn [leaf_names map concat]. rewrite app_nil_r.
    destruct c as [? ? cs ? ? ?]. cbn [children] in Hch. subst.
    cbn [leaf_names]. by destruct sc, cs.
Qed.

Lemma annotate_twice_off (tree : Node) :
  ∀ dp, _compute_tree_properties (_compute_tree_properties tree dp false) dp false
        = _compute_tree_properties tree dp false.
Proof.
  induction tree as [nm ch sc d nd cc IH] using Node_children_ind.
  intros dp. destruct ch as [|c ch]; [done|].
  rewrite compute_no_merge. unfold annotated.
  set (kids := map _ (c :: ch)).
  assert (Hkids : map (λ child, _compute_tree_properties child (dp + 1) false) kids
                  = kids).
  { subst kids. rewrite map_map. apply map_ext_Forall.
    eapply Forall_impl; [exact IH|]. auto. }
  assert (Hne : kids ≠ []) by (subst kids; discriminate).
  clearbody kids. destruct kids as [|k kids']; [done|].
  rewrite compute_no_merge. unfold annotated. by rewrite Hkids.
Qed.

(** X10.  Annotating an annotated tree again, at the same depth, changes
    nothing. *)
Theorem annotation_idempotent (tree : Node) (dp : Z) (merge : bool) :
  _compute_tree_properties (_compute_tree_properties tree dp merge) dp false
  = _compute_tree_properties tree dp merge.
Proof.
  destruct tree as [nm [|c ch] sc d nd cc]; [done|].
  destruct (compute_cases nm c ch sc d nd cc dp merge)
    as [->|(_ & _ & _ & Hkids & ->)].
  - rewrite annotated_as_call. apply annotate_twice_off.
  - destruct (children c) as [|c' ch']; [done|].
    rewrite annotated_as_call. apply annotate_twice_off.
Qed.

(** Number of nodes without children named [k] in the subtree of [t]. *)
Fixpoint count_named (k : string) (t : Node) : Z :=
  match t with
  | mkNode nm ch _ _ _ _ =>
      match ch with
      | [] => if decide (nm = k) then 1 else 0
      | _ => sum_Z (map (count_named k) ch)
      end
  end.

Definition counts_by_name (t : Node) : Prop :=
  ∀ k, get_class_counts t !! k
       = if decide (count_named k t = 0) then None else Some (count_named k t).

Lemma sum_Z_nonneg {A : Type} (f : A → Z) (l : list A) :
  Forall (λ x, 0 ≤ f x) l → 0 ≤ sum_Z (map f l).
Proof.
  induction 1 as [|x l Hx _ IH]; [done|]. unfold sum_Z in *. cbn. lia.
Qed.

Lemma count_named_nonneg (k : string) (t : Node) : 0 ≤ count_named k t.
Proof.
  induction t as [nm ch sc d nd cc IH] using Node_children_ind.
  destruct ch as [|c ch].
  - cbn. by destruct (decide (nm = k)).
  - by apply sum_Z_nonneg.
Qed.

Lemma lookup_foldl_merge (ms : list (gmap string Z)) (acc : gmap string Z)
    (k : string) :
  Forall (λ m, ∀ v, m !! k = Some v → 0 < v) ms →
  (∀ v, acc !! k = Some v → 0 < v) →
  foldl merge_additive acc ms !! k
  = if decide (get0 acc k + sum_Z (map (λ m, get0 m k) ms) = 0)
    then None
    else Some (get0 acc k + sum_Z (map (λ m, get0 m k) ms)).
Proof.
  intros Hms. revert acc. induction Hms as [|m ms Hm _ IH]; intros acc Hacc.
  - unfold sum_Z, get0. cbn. destruct (acc !! k) as [v|] eqn:Hk; cbn.
    + specialize (Hacc v eq_refl). rewrite decide_False by lia.
      f_equal. lia.
    + by rewrite decide_True.
  - cbn [foldl map]. rewrite IH.
    + assert (Hget : get0 (merge_additive acc m) k = get0 acc k + get0 m k).
      { unfold get0, merge_additive. rewrite lookup_union_with.
        destruct (acc !! k), (m !! k); cbn; lia. }
      rewrite Hget. unfold sum_Z. cbn [foldr].
      replace (get0 acc k + get0 m k + foldr Z.add 0 (map (λ m0, get0 m0 k) ms))
        with (get0 acc k + (get0 m k + foldr Z.add 0 (map (λ m0, get0 m0 k) ms)))
        by lia.
      done.
    + intros v. unfold merge_additive. rewrite lookup_union_with.
      destruct (acc !! k) as [a|] eqn:Ha, (m !! k) as [b|] eqn:Hb; cbn;
        intros [= <-].
      * specialize (Hacc a eq_refl). specialize (Hm b eq_refl). lia.
      * by apply Hacc.
      * by apply Hm.
Qed.

Lemma counts_by_name_ok (t : Node) :
  every_node class_counts_ok t → every_node counts_by_name t.
Proof.
  induction t as [nm ch sc d nd cc IH] using Node_children_ind.
  intros Ht. inversion Ht as [t' Hhere Hch]; subst. cbn [children] in Hch.
  assert (Hkids : Forall (every_node counts_by_name) ch).
  { clear Ht Hhere. induction Hch as [|c l Hc _ IHl]; [constructor|].
    inversion IH; subst. constructor; auto. }
  constructor; [|exact Hkids].
  destruct Hhere as (m & Hm & Hleaf & Hinner & _).
  cbn [class_counts children name] in *. subst cc.
  intros k. unfold get_class_counts. cbn [class_counts default]. unfold id.
  destruct ch as [|c ch].
  - rewrite Hleaf by done. cbn [count_named].
    destruct (decide (nm = k)) as [->|Hne].
    + by rewrite lookup_singleton_eq.
    + by rewrite lookup_singleton_ne.
  - rewrite Hinner by done.
    assert (Hpos : Forall (λ m0 : gmap string Z, ∀ v, m0 !! k = Some v → 0 < v)
                          (map get_class_counts (c :: ch))).
    { apply Forall_map. eapply Forall_impl; [exact Hkids|]. intros n Hn v.
      apply every_node_here in Hn. cbn beta. rewrite (Hn k).
      pose proof (count_named_nonneg k n).
      destruct (decide (count_named k n = 0)); [done|]. intros [= <-]. lia. }
    assert (Hempty : ∀ v, (∅ : gmap string Z) !! k = Some v → 0 < v).
    { intros v. by rewrite lookup_empty. }
    rewrite (lookup_foldl_merge _ _ k Hpos Hempty).
    assert (Hzero : get0 (∅ : gmap string Z) k = 0) by done.
    rewrite Hzero, !Z.add_0_l, map_map.
    assert (Hsum : sum_Z (map (λ x, get0 (get_class_counts x) k) (c :: ch))
                   = count_named k (mkNode nm (c :: ch) sc d nd (Some m))).
    { cbn [count_named]. apply sum_Z_map_ext.
      eapply Forall_impl; [exact Hkids|]. intros n Hn.
      apply every_node_here in Hn. unfold get0. rewrite (Hn k).
      by destruct (decide (count_named k n = 0)) as [->|?]. }
    by rewrite Hsum.
Qed.

(** X11.  In an annotated tree the class counts of every node map each
    name to the number of childless nodes of that name in its subtree, and
    hold no other name. *)
Theorem class_counts_by_name (tree : Node) (dp : Z) (merge : bool) :
  every_node counts_by_name (_compute_tree_properties tree dp merge).
Proof.
  apply counts_by_name_ok.
  eapply every_node_impl; [|apply compute_ok]. by intros n (_ & _ & ?).
Qed.

(** ** Further properties of the extraction *)


(** Two different rules of the set have clauses with the same terms. *)
Definition clash (ruleset : Ruleset) : Prop :=
  ∃ r1 r2 c1 c2,
    r1 ∈ rules ruleset ∧ r2 ∈ rules ruleset
    ∧ premise r1 = {[ c1 ]} ∧ premise r2 = {[ c2 ]}
    ∧ terms c1 = terms c2 ∧ r1 ≠ r2.

Lemma two_rules_ranked (ruleset : Ruleset) (r1 r2 : Rule) (lr : list Rule) :
  (∀ r, r ∈ rules ruleset → ∃ c, premise r = {[ c ]}) →
  ¬ clash ruleset →
  elements (rules ruleset) = r1 :: r2 :: lr →
  (_get_term_counts ruleset).1 ≠ [].
Proof.
  intros single Hclash Hrules Hrank.
  assert (Hin : ∀ r, r ∈ r1 :: r2 :: lr → r ∈ rules ruleset).
  { intros r Hr. apply elem_of_elements. by rewrite Hrules. }
  assert (Hr1 : r1 ∈ rules ruleset) by (apply Hin; repeat constructor).
  assert (Hr2 : r2 ∈ rules ruleset) by (apply Hin; repeat constructor).
  assert (Hne : r1 ≠ r2).
  { pose proof (NoDup_elements (rules ruleset)) as Hnd. rewrite Hrules in Hnd.
    apply NoDup_cons in Hnd as [Hnotin _]. intros ->.
    apply Hnotin. apply list_elem_of_here. }
  destruct (single r1 Hr1) as [c1 Hc1], (single r2 Hr2) as [c2 Hc2].
  assert (Hnone : ∀ r c, r ∈ rules ruleset → premise r = {[ c ]} → terms c = ∅).
  { intros r c Hr Hc. apply set_eq. intros t.
    split; [|by intros ?%not_elem_of_empty]. intros Ht.
    assert (Hv : t ∈ (_get_term_counts ruleset).1).
    { apply elem_of_ranking, elem_of_visited. exists r, c.
      rewrite Hc. split; [done|]. split; [by apply elem_of_singleton|done]. }
    rewrite Hrank in Hv. by apply elem_of_nil in Hv. }
  apply Hclash. exists r1, r2, c1, c2.
  rewrite (Hnone r1 c1 Hr1 Hc1), (Hnone r2 c2 Hr2 Hc2). done.
Qed.

Lemma no_clash_parts (ruleset : Ruleset) (term : Term) :
  (∀ r, r ∈ rules ruleset → ∃ c, premise r = {[ c ]}) →
  ¬ clash ruleset →
  ¬ clash (_partition_ruleset ruleset term).1
  ∧ ¬ clash (_partition_ruleset ruleset term).2.
Proof.
  intros single Hclash. split.
  - intros (x1 & x2 & c1' & c2' & Hx1 & Hx2 & Hc1' & Hc2' & Hterms & Hne).
    cbn [rules] in Hx1, Hx2.
    apply elem_of_contain in Hx1 as (r1 & c1 & Hr1 & Hc1 & Ht1 & ->).
    apply elem_of_contain in Hx2 as (r2 & c2 & Hr2 & Hc2 & Ht2 & ->).
    unfold contain_of in Hc1', Hc2'. cbn [premise fst snd] in Hc1', Hc2'.
    assert (Hs1 : strip_term term c1 ∈ ({[ c1' ]} : gset ConjunctiveClause)).
    { rewrite <- Hc1'. by apply elem_of_singleton. }
    assert (Hs2 : strip_term term c2 ∈ ({[ c2' ]} : gset ConjunctiveClause)).
    { rewrite <- Hc2'. by apply elem_of_singleton. }
    apply elem_of_singleton in Hs1, Hs2. subst c1' c2'.
    unfold strip_term in Hterms. cbn [terms] in Hterms.
    assert (Hp1 : premise r1 = {[ c1 ]}).
    { by apply (single_pair ruleset single), elem_of_clause_pairs. }
    assert (Hp2 : premise r2 = {[ c2 ]}).
    { by apply (single_pair ruleset single), elem_of_clause_pairs. }
    assert (Hsame : terms c1 = terms c2).
    { apply set_eq. intros x. destruct (decide (x = term)) as [->|Hx]; [logic|].
      assert (Hiff : x ∈ (terms c1 ∖ {[ term ]}) ↔ x ∈ (terms c2 ∖ {[ term ]})).
      { by rewrite Hterms. }
      rewrite !elem_of_difference, !elem_of_singleton in Hiff. logic. }
    destruct (decide (r1 = r2)) as [->|Hr].
    + rewrite Hp1 in Hp2.
      assert (Hcc : c1 ∈ ({[ c2 ]} : gset ConjunctiveClause)).
      { rewrite <- Hp2. by apply elem_of_singleton. }
      apply elem_of_singleton in Hcc as ->. done.
    + apply Hclash. by exists r1, r2, c1, c2.
  - intros (x1 & x2 & c1 & c2 & Hx1 & Hx2 & Hc1 & Hc2 & Hterms & Hne).
    cbn [rules] in Hx1, Hx2.
    assert (Hback : ∀ x, x ∈ rules (_partition_ruleset ruleset term).2 →
                         x ∈ rules ruleset).
    { intros x (r & c & Hr & Hc & _ & ->)%elem_of_disjoint.
      assert (Hp : (r, c) ∈ clause_pairs ruleset) by by apply elem_of_clause_pairs.
      by rewrite (single_disjoint_of ruleset single (r, c) Hp). }
    apply Hclash. exists x1, x2, c1, c2. auto 10.
Qed.

Lemma clash_parts (ruleset : Ruleset) (term : Term) :
  (∀ r, r ∈ rules ruleset → ∃ c, premise r = {[ c ]}) →
  clash ruleset →
  clash (_partition_ruleset ruleset term).1
  ∨ clash (_partition_ruleset ruleset term).2.
Proof.
  intros single (r1 & r2 & c1 & c2 & Hr1 & Hr2 & Hc1 & Hc2 & Hterms & Hne).
  assert (Hp1 : (r1, c1) ∈ clause_pairs ruleset).
  { apply elem_of_clause_pairs. rewrite Hc1. split; [done|].
    by apply elem_of_singleton. }
  assert (Hp2 : (r2, c2) ∈ clause_pairs ruleset).
  { apply elem_of_clause_pairs. rewrite Hc2. split; [done|].
    by apply elem_of_singleton. }
  destruct (decide (term ∈ terms c1)) as [Ht1|Ht1].
  - assert (Ht2 : term ∈ terms c2) by by rewrite <- Hterms.
    left. exists (contain_of term (r1, c1)), (contain_of term (r2, c2)),
            (strip_term term c1), (strip_term term c2).
    cbn [rules].
    split.
    { apply elem_of_contain. exists r1, c1. rewrite Hc1, elem_of_singleton.
      split; [done|]. split; [done|]. split; done. }
    split.
    { apply elem_of_contain. exists r2, c2. rewrite Hc2, elem_of_singleton.
      split; [done|]. split; [done|]. split; done. }
    split; [done|]. split; [done|].
    split; [unfold strip_term; cbn [terms]; by rewrite Hterms|].
    intros Heq. apply Hne.
    assert (Hp : (r1, c1) = (r2, c2)); [|by injection Hp].
    apply (single_contain_inj ruleset term single); [| |done];
      by apply list_elem_of_filter.
  - assert (Ht2 : term ∉ terms c2) by by rewrite <- Hterms.
    right. exists r1, r2, c1, c2. cbn [rules].
    split.
    { apply elem_of_disjoint. exists r1, c1. rewrite Hc1, elem_of_singleton.
      split; [done|]. split; [done|]. split; [done|].
      unfold disjoint_of. cbn [fst snd]. by apply single_clause_rule. }
    split.
    { apply elem_of_disjoint. exists r2, c2. rewrite Hc2, elem_of_singleton.
      split; [done|]. split; [done|]. split; [done|].
      unfold disjoint_of. cbn [fst snd]. by apply single_clause_rule. }
    done.
Qed.

Lemma extract_fuel_no_clash (dataset : option Dataset) (merge : bool) :
  ∀ fuel ruleset,
    (ruleset_weight ruleset < fuel)%nat →
    (∀ r, r ∈ rules ruleset → ∃ c, premise r = {[ c ]}) →
    ¬ clash ruleset →
    ∃ nodes, extract_fuel fuel ruleset dataset merge = Ok nodes.
Proof.
  induction fuel as [|fuel IH]; intros ruleset Hf single Hclash; [lia|].
  cbn [extract_fuel].
  pose proof (two_rules_ranked ruleset) as Hranked.
  destruct (elements (rules ruleset)) as [|r1 [|r2 lr]]; [by eexists..|].
  specialize (Hranked r1 r2 lr single Hclash eq_refl).
  destruct (_get_term_counts ruleset).1 as [|t rest] eqn:Hrank; [done|].
  apply ranking_head_visited in Hrank.
  destruct (partition_weight ruleset t Hrank) as [Hw1 Hw2].
  destruct (no_clash_parts ruleset t single Hclash) as [Hc1 Hc2].
  cbv zeta.
  destruct (IH (_partition_ruleset ruleset t).1)
    as [kids Hkids]; [lia| |done|].
  { intros r Hr. eapply partition_outputs_single. left. exact Hr. }
  destruct (IH (_partition_ruleset ruleset t).2)
    as [sibs Hsibs]; [lia| |done|].
  { intros r Hr. eapply partition_outputs_single. right. exact Hr. }
  rewrite Hkids, Hsibs. by eexists.
Qed.

Lemma extract_fuel_clash (dataset : option Dataset) (merge : bool) :
  ∀ fuel ruleset,
    (ruleset_weight ruleset < fuel)%nat →
    (∀ r, r ∈ rules ruleset → ∃ c, premise r = {[ c ]}) →
    clash ruleset →
    extract_fuel fuel ruleset dataset merge = IndexError.
Proof.
  induction fuel as [|fuel IH]; intros ruleset Hf single Hclash; [lia|].
  cbn [extract_fuel].
  assert (Htwo : ∃ r1 r2 lr, elements (rules ruleset) = r1 :: r2 :: lr).
  { destruct Hclash as (r1 & r2 & _ & _ & Hr1 & Hr2 & _ & _ & _ & Hne).
    apply elem_of_elements in Hr1, Hr2.
    destruct (elements (rules ruleset)) as [|x [|y l]]; [|exfalso|by eauto].
    - by apply elem_of_nil in Hr1.
    - apply list_elem_of_singleton in Hr1, Hr2. congruence. }
  destruct Htwo as (r1 & r2 & lr & ->).
  destruct (_get_term_counts ruleset).1 as [|t rest] eqn:Hrank; [done|].
  apply ranking_head_visited in Hrank.
  destruct (partition_weight ruleset t Hrank) as [Hw1 Hw2].
  cbv zeta.
  pose proof (extract_terminates dataset merge fuel
                (_partition_ruleset ruleset t).1 ltac:(lia)) as Hend.
  destruct (clash_parts ruleset t single Hclash) as [Hc|Hc].
  - rewrite (IH (_partition_ruleset ruleset t).1); [done|lia| |done].
    intros r Hr. eapply partition_outputs_single. left. exact Hr.
  - rewrite (IH (_partition_ruleset ruleset t).2); [|lia| |done].
    + by destruct (extract_fuel fuel (_partition_ruleset ruleset t).1 dataset merge).
    + intros r Hr. eapply partition_outputs_single. right. exact Hr.
Qed.

(** X13.  On a single-clause rule set the entry point returns a tree
    exactly when no two different rules have the same terms; when two do,
    it raises [IndexError]. *)
Theorem returns_unless_clash (ruleset : Ruleset) (dataset : option Dataset)
    (merge : bool) :
  (∀ r, r ∈ rules ruleset → ∃ c, premise r = {[ c ]}) →
  (¬ clash ruleset → ∃ tree, ruleset_hierarchy_tree ruleset dataset merge = Ok tree)
  ∧ (clash ruleset → ruleset_hierarchy_tree ruleset dataset merge = IndexError).
Proof.
  intros single. unfold ruleset_hierarchy_tree, _extract_hierarchy_node. split.
  - intros Hclash.
    destruct (extract_fuel_no_clash dataset merge (S (ruleset_weight ruleset))
                ruleset ltac:(lia) single Hclash) as [nodes ->].
    by eexists.
  - intros Hclash.
    by rewrite (extract_fuel_clash dataset merge (S (ruleset_weight ruleset))
                  ruleset ltac:(lia) single Hclash).
Qed.

(** A property of nodes that looks at the name, at the score and at
    whether there are children holds throughout a tree as soon as it
    holds throughout a tree of the same shape. *)
Lemma every_node_same_skeleton (P : Node → Prop) :
  (∀ n n', name n = name n' → score n = score n' →
           (children n = [] ↔ children n' = []) → P n → P n') →
  ∀ t t', skeleton t = skeleton t' → every_node P t → every_node P t'.
Proof.
  intros HP. induction t as [nm ch sc d nd cc IH] using Node_children_ind.
  intros [nm' ch' sc' d' nd' cc'] Hsk Ht. cbn [skeleton] in Hsk.
  unfold raw_node in Hsk. injection Hsk as -> Hch ->.
  inversion Ht as [t0 Hhere Hkids]; subst. cbn [children] in Hkids.
  constructor.
  - eapply HP; [| | |exact Hhere]; [done|done|]. cbn [children].
    destruct ch, ch'; done.
  - cbn [children]. clear Ht Hhere. revert ch' Hch.
    induction Hkids as [|c l Hc _ IHl]; intros [|c' l'] Hch;
      try discriminate; [constructor|].
    cbn [map] in Hch. injection Hch as Hc' Hl'.
    inversion IH; subst. constructor; eauto.
Qed.

(** A node has a score exactly when it has no children. *)
Definition leaf_iff_score (n : Node) : Prop :=
  children n = [] ↔ is_Some (score n).

(** The name of a node is an escaped string. *)
Definition escaped_name (n : Node) : Prop := ∃ s, name n = _htmlify s.

Lemma every_node_raw (P : Node → Prop) (nm : string) (ch : list Node)
    (sc : option Score) :
  P (raw_node nm ch sc) → Forall (every_node P) ch →
  every_node P (raw_node nm ch sc).
Proof. intros Hhere Hch. by constructor. Qed.

Lemma chain_nodes (P : Node → Prop) (dataset : option Dataset)
    (ts : list Term) (leaf : Node) :
  (∀ nm c ch, P (raw_node (_htmlify nm) (c :: ch) None)) →
  every_node P leaf →
  chain dataset ts leaf ≠ [] ∧ Forall (every_node P) (chain dataset ts leaf).
Proof.
  intros Hinner Hleaf. induction ts as [|t ts [Hne IH]].
  - unfold chain. cbn [foldr]. split; [done|].
    apply Forall_cons. split; [exact Hleaf|apply Forall_nil_2].
  - unfold chain in *. cbn [foldr]. split; [done|].
    apply Forall_cons. split; [|apply Forall_nil_2].
    destruct (foldr _ [leaf] ts) as [|c ch]; [done|].
    apply every_node_raw; [apply Hinner|exact IH].
Qed.

Lemma base_case_nodes (P : Node → Prop) (rule : Rule)
    (dataset : option Dataset) (merge : bool) :
  (∀ nm c ch, P (raw_node (_htmlify nm) (c :: ch) None)) →
  (∀ nm s, P (raw_node (_htmlify nm) [] (Some s))) →
  base_case rule dataset merge ≠ []
  ∧ Forall (every_node P) (base_case rule dataset merge).
Proof.
  intros Hinner Hleaf.
  assert (Hl : ∀ nm s, every_node P (raw_node (_htmlify nm) [] (Some s))).
  { intros nm s. apply every_node_raw; [apply Hleaf|apply Forall_nil_2]. }
  assert (Hone : ∀ n, every_node P n → [n] ≠ [] ∧ Forall (every_node P) [n]).
  { intros n Hn. split; [done|].
    apply Forall_cons. split; [exact Hn|apply Forall_nil_2]. }
  unfold base_case. cbv zeta.
  destruct (head (elements (premise rule))) as [c|]; [|apply Hone, Hl].
  destruct (elements (terms c)) as [|t ts]; [apply Hone, Hl|].
  destruct merge.
  - apply Hone, every_node_raw; [apply Hinner|].
    apply Forall_cons. split; [apply Hl|apply Forall_nil_2].
  - apply chain_nodes; [exact Hinner|apply Hl].
Qed.

Lemma extract_fuel_nodes (P : Node → Prop) (dataset : option Dataset)
    (merge : bool) :
  (∀ nm c ch, P (raw_node (_htmlify nm) (c :: ch) None)) →
  (∀ nm s, P (raw_node (_htmlify nm) [] (Some s))) →
  ∀ fuel ruleset nodes,
    extract_fuel fuel ruleset dataset merge = Ok nodes →
    (rules ruleset ≠ ∅ → nodes ≠ []) ∧ Forall (every_node P) nodes.
Proof.
  intros Hinner Hleaf.
  induction fuel as [|fuel IH]; intros ruleset nodes; [done|].
  cbn [extract_fuel].
  destruct (elements (rules ruleset)) as [|r1 [|r2 lr]] eqn:Hrules.
  - intros [= <-]. split; [|constructor]. intros Hne.
    by apply elements_empty_inv, leibniz_equiv in Hrules.
  - intros [= <-].
    destruct (base_case_nodes P r1 dataset merge Hinner Hleaf). by split.
  - destruct (_get_term_counts ruleset).1 as [|t rest] eqn:Hrank; [done|].
    cbv zeta.
    destruct (extract_fuel fuel (_partition_ruleset ruleset t).1 dataset merge)
      as [kids| |] eqn:Hkids; [|done|done].
    destruct (extract_fuel fuel (_partition_ruleset ruleset t).2 dataset merge)
      as [sibs| |] eqn:Hsibs; [|done|done].
    cbn [bind]. intros [= <-]. split; [done|].
    apply IH in Hkids as [Hne Hk]. apply IH in Hsibs as [_ Hs].
    constructor; [|exact Hs]. constructor; [|exact Hk].
    destruct kids as [|k kids]; [|apply Hinner].
    destruct Hne; [|done].
    apply ranking_head_visited, elem_of_visited in Hrank
      as (r & c & Hr & Hc & Ht).
    intros Hempty.
    assert (Hin : contain_of t (r, c) ∈ rules (_partition_ruleset ruleset t).1).
    { apply elem_of_contain. by exists r, c. }
    rewrite Hempty in Hin. by apply not_elem_of_empty in Hin.
Qed.

(** X14.  In a returned tree the root has no score, and below the root a
    node has a score exactly when it has no children: a conclusion never
    has children and a term always has one. *)
Theorem score_marks_leaves (ruleset : Ruleset) (dataset : option Dataset)
    (merge : bool) (tree : Node) :
  ruleset_hierarchy_tree ruleset dataset merge = Ok tree →
  score tree = None ∧ Forall (every_node leaf_iff_score) (children tree).
Proof.
  unfold ruleset_hierarchy_tree, _extract_hierarchy_node.
  destruct (extract_fuel _ ruleset dataset merge) as [kids| |] eqn:Hkids;
    [|done|done].
  intros Htree.
  assert (Heq : tree = _compute_tree_properties
                         (raw_node "ruleset" kids None) 0 merge).
  { unfold bind in Htree. congruence. }
  rewrite Heq. clear Heq Htree. split; [by rewrite compute_score|].
  apply (extract_fuel_nodes leaf_iff_score) in Hkids as [_ Hall].
  - unfold raw_node. destruct kids as [|k kids]; [constructor|].
    cbn [_compute_tree_properties Z.eqb negb andb children].
    apply Forall_map. eapply Forall_impl; [exact Hall|]. intros n Hn.
    eapply (every_node_same_skeleton leaf_iff_score); [| |exact Hn].
    + unfold leaf_iff_score. intros a b _ <- <-. done.
    + symmetry. apply skeleton_no_merge.
  - intros nm c ch. unfold leaf_iff_score. cbn.
    split; [done|]. by intros [? ?].
  - intros nm s. unfold leaf_iff_score. cbn. split; [by eexists|done].
Qed.

(** Every name of a returned tree is ["ruleset"] or an escaped string. *)
Lemma names_are_escaped (ruleset : Ruleset) (dataset : option Dataset)
    (merge : bool) (tree : Node) :
  ruleset_hierarchy_tree ruleset dataset merge = Ok tree →
  name tree = "ruleset" ∧ Forall (every_node escaped_name) (children tree).
Proof.
  unfold ruleset_hierarchy_tree, _extract_hierarchy_node.
  destruct (extract_fuel _ ruleset dataset merge) as [kids| |] eqn:Hkids;
    [|done|done].
  intros Htree.
  assert (Heq : tree = _compute_tree_properties
                         (raw_node "ruleset" kids None) 0 merge).
  { unfold bind in Htree. congruence. }
  rewrite Heq. clear Heq Htree. split; [apply compute_root_name|].
  apply (extract_fuel_nodes escaped_name) in Hkids as [_ Hall].
  - unfold raw_node. destruct kids as [|k kids]; [constructor|].
    cbn [_compute_tree_properties Z.eqb negb andb children].
    apply Forall_map. eapply Forall_impl; [exact Hall|]. intros n Hn.
    eapply (every_node_same_skeleton escaped_name); [| |exact Hn].
    + unfold escaped_name. intros a b <- _ _. done.
    + symmetry. apply skeleton_no_merge.
  - intros nm c ch. by exists nm.
  - intros nm s. by exists nm.
Qed.

(** X15.  A rule set with one rule always gives a tree, with exactly one
    leaf, named after the conclusion of the rule, however many clauses the
    premise has. *)
Theorem one_rule_tree (ruleset : Ruleset) (rule : Rule)
    (dataset : option Dataset) (merge : bool) :
  rules ruleset = {[ rule ]} →
  ∃ tree, ruleset_hierarchy_tree ruleset dataset merge = Ok tree
          ∧ leaf_names tree = [conclusion_name rule].
Proof.
  intros Hr. unfold ruleset_hierarchy_tree.
  rewrite (extract_single ruleset rule dataset merge Hr). unfold bind.
  eexists. split; [reflexivity|].
  rewrite <- leaf_names_skeleton, skeleton_root, leaf_names_skeleton.
  unfold raw_node. rewrite leaf_names_inner. apply base_case_leaves.
Qed.

(** ** The counts at the root *)

Lemma occurrences_concat (k : string) (ls : list (list string)) :
  Z.of_nat (length (filter (λ x, x = k) (concat ls)))
  = sum_Z (map (λ l, Z.of_nat (length (filter (λ x, x = k) l))) ls).
Proof.
  induction ls as [|l ls IH]; [done|].
  cbn [concat map]. rewrite filter_app, length_app, Nat2Z.inj_add, IH.
  by unfold sum_Z.
Qed.

Lemma occurrences_fmap {A : Type} (f : A → string) (k : string) (l : list A) :
  length (filter (λ x, x = k) (f <$> l)) = length (filter (λ a, f a = k) l).
Proof.
  induction l as [|a l IH]; [done|].
  rewrite fmap_cons, !filter_cons.
  destruct (decide (f a = k)); cbn [length]; by rewrite IH.
Qed.

Lemma count_named_leaves (k : string) (t : Node) :
  every_node leaf_iff_score t →
  count_named k t = Z.of_nat (length (filter (λ x, x = k) (leaf_names t))).
Proof.
  induction t as [nm ch sc d nd cc IH] using Node_children_ind.
  intros Ht. inversion Ht as [t' Hhere Hch]; subst. cbn [children] in Hch.
  destruct ch as [|c ch].
  - destruct Hhere as [Hsc _]. destruct (Hsc eq_refl) as [s Hs].
    cbn [score] in Hs. subst sc. cbn [count_named leaf_names].
    rewrite filter_cons, filter_nil. by destruct (decide (nm = k)).
  - assert (Hnames : leaf_names (mkNode nm (c :: ch) sc d nd cc)
                     = concat (map leaf_names (c :: ch))) by by destruct sc.
    rewrite Hnames, occurrences_concat, map_map. cbn [count_named].
    apply sum_Z_map_ext. clear Hnames Ht Hhere.
    induction Hch as [|x l Hx _ IHl]; [constructor|].
    inversion IH; subst. constructor; auto.
Qed.

(** X17.  For a single-clause rule set that is not empty, the class
    counts at the root of a returned tree give, for every name, the number
    of rules whose conclusion has that name. *)
Theorem root_counts_rules (ruleset : Ruleset) (dataset : option Dataset)
    (merge : bool) (tree : Node) (k : string) :
  (∀ r, r ∈ rules ruleset → ∃ c, premise r = {[ c ]}) →
  rules ruleset ≠ ∅ →
  ruleset_hierarchy_tree ruleset dataset merge = Ok tree →
  get0 (get_class_counts tree) k
  = Z.of_nat (length (filter (λ r, conclusion_name r = k)
                             (elements (rules ruleset)))).
Proof.
  intros single Hne Htree.
  unfold ruleset_hierarchy_tree, _extract_hierarchy_node in Htree.
  destruct (extract_fuel _ ruleset dataset merge) as [kids| |] eqn:Hkids;
    [|done|done].
  assert (Heq : tree = _compute_tree_properties
                         (raw_node "ruleset" kids None) 0 merge).
  { unfold bind in Htree. congruence. }
  clear Htree.
  pose proof (extract_fuel_leaves dataset merge _ ruleset kids single Hkids)
    as Hleaves.
  apply (extract_fuel_nodes leaf_iff_score) in Hkids as [Hsome Hall].
  2: { intros nm c ch. unfold leaf_iff_score. cbn.
       split; [done|]. by intros [? ?]. }
  2: { intros nm s. unfold leaf_iff_score. cbn. split; [by eexists|done]. }
  specialize (Hsome Hne).
  assert (Hby : counts_by_name tree).
  { rewrite Heq. apply every_node_here, counts_by_name_ok.
    eapply every_node_impl; [|apply compute_ok]. by intros n (_ & _ & ?). }
  assert (Hget : get0 (get_class_counts tree) k = count_named k tree).
  { unfold get0. rewrite (Hby k).
    by destruct (decide (count_named k tree = 0)) as [->|?]. }
  rewrite Hget, Heq. clear Hget Hby Heq.
  rewrite <- occurrences_fmap, <- Hleaves.
  destruct kids as [|kid kids]; [done|].
  unfold raw_node. cbn [_compute_tree_properties Z.eqb negb andb].
  cbn [count_named]. unfold forest_leaves.
  set (annotate := λ child, _compute_tree_properties child (0 + 1) false).
  assert (Hk : map annotate (kid :: kids) ≠ []) by done.
  destruct (map annotate (kid :: kids)) as [|a l] eqn:Hmap; [done|].
  rewrite <- Hmap. clear Hk Hmap.
  rewrite occurrences_concat, !map_map. apply sum_Z_map_ext.
  eapply Forall_impl; [exact Hall|]. intros n Hn. subst annotate. cbn beta.
  rewrite count_named_leaves.
  - by rewrite <- leaf_names_skeleton, skeleton_no_merge, leaf_names_skeleton.
  - eapply (every_node_same_skeleton leaf_iff_score); [| |exact Hn].
    + unfold leaf_iff_score. intros x y _ <- <-. done.
    + symmetry. apply skeleton_no_merge.
Qed.

End Hierarchy.

(** * Concrete rule sets *)

(** Four terms and two classes are enough for the examples; confidences
    and scores are integers, a score of 9 standing for 0.9. *)
Inductive letter : Type := A | B | C | D.
Inductive label : Type := X | Y.

#[global] Instance letter_eq_dec : EqDecision letter.
Proof. solve_decision. Defined.

#[global] Instance label_eq_dec : EqDecision label.
Proof. solve_decision. Defined.

#[global] Instance letter_countable : Countable letter.
Proof.
  refine (inj_countable'
            (λ x, match x with A => 0 | B => 1 | C => 2 | D => 3 end)%nat
            (λ n, match n with 0 => A | 1 => B | 2 => C | _ => D end)%nat _).
  by intros [].
Defined.

#[global] Instance label_countable : Countable label.
Proof.
  refine (inj_countable' (λ x, match x with X => true | Y => false end)
                         (λ b : bool, if b then X else Y) _).
  by intros [].
Defined.

Definition str_letter (x : letter) : string :=
  match x with A => "A" | B => "B" | C => "C" | D => "D" end.

Definition str_label (x : label) : string :=
  match x with X => "X" | Y => "Y" end.

Abbreviation ex_rule := (Rule (Term:=letter) (Conclusion:=label) (Confidence:=Z) (Score:=Z)).
Abbreviation ex_ruleset := (Ruleset (Term:=letter) (Conclusion:=label) (Confidence:=Z) (Score:=Z)).
Abbreviation ex_node := (Node (Score:=Z)).

(** A rule with one clause. *)
Definition rule1 (ts : gset letter) (s : Z) (c : label) : ex_rule :=
  mkRule {[ mkClause ts 1 s ]} c.

Definition ex_tree (ruleset : ex_ruleset) (merge : bool) : result ex_node :=
  ruleset_hierarchy_tree (Dataset:=unit) str_letter (λ x _, str_letter x)
                         str_label 0 ruleset None merge.

(** The end-to-end example of the specification. *)
Definition ex_two : ex_ruleset :=
  mkRuleset {[ rule1 {[ A; B ]} 9 X; rule1 {[ B ]} 5 Y ]} [] [] false.

(** Two rules with the same clause and different conclusions. *)
Definition ex_clash : ex_ruleset :=
  mkRuleset {[ rule1 {[ A ]} 9 X; rule1 {[ A ]} 5 Y ]} [] [] false.

(** Two rules that share two terms. *)
Definition ex_shared : ex_ruleset :=
  mkRuleset {[ rule1 {[ A; B; C ]} 9 X; rule1 {[ A; B; D ]} 5 Y ]} [] [] false.

(** One rule without clauses. *)
Definition ex_no_clause : ex_ruleset :=
  mkRuleset {[ mkRule ∅ X ]} [] [] false.

(** One rule with two clauses that share a term. *)
Definition ex_two_clauses : ex_ruleset :=
  mkRuleset {[ mkRule {[ mkClause {[ A; B ]} 1 9; mkClause {[ A; C ]} 1 5 ]} X ]}
            [] [] false.

Definition ex_leaf (c : label) (s : Z) : ex_node :=
  raw_node (str_label c) [] (Some s).

Lemma ex_two_single (r : ex_rule) :
  r ∈ rules ex_two → ∃ c, premise r = {[ c ]}.
Proof.
  unfold ex_two. cbn [rules]. intros [Hr|Hr]%elem_of_union;
    apply elem_of_singleton in Hr; subst r; eexists; reflexivity.
Defined.

Lemma partition_single_clause_witness :
  (∀ r, r ∈ rules ex_two → ∃ c, premise r = {[ c ]})
  ∧ (size (rules (_partition_ruleset ex_two A).1)
     + size (rules (_partition_ruleset ex_two A).2)
     = size (rules ex_two))%nat.
Proof.
  split; [exact ex_two_single|].
  destruct (partition_single_clause ex_two A ex_two_single)
    as (_ & _ & _ & _ & _ & Hsize).
  exact Hsize.
Defined.

(** C2.  Two single-clause rules with the same terms: the first split
    leaves two rules without terms, the ranking of the inner call is empty
    and [sorted_terms[0]] raises, with or without merging. *)
Theorem clash_raises :
  size (rules ex_clash) = 2%nat
  ∧ (∀ r, r ∈ rules ex_clash → ∃ c, premise r = {[ c ]})
  ∧ ex_tree ex_clash false = IndexError
  ∧ ex_tree ex_clash true = IndexError.
Proof.
  split; [by vm_compute|]. split; [|split; by vm_compute].
  unfold ex_clash. cbn [rules]. intros r [Hr|Hr]%elem_of_union;
    apply elem_of_singleton in Hr; subst r; eexists; reflexivity.
Qed.

(** C3.  With [merge] set, the node under the root has exactly one child,
    and that child has children of its own, yet it keeps its name and its
    child: the recursive call of the annotation does not pass the flag on. *)
Theorem merge_flag_is_dropped :
  match ex_tree ex_shared true with
  | Ok tree =>
      skeleton tree
      = raw_node "ruleset"
          [raw_node "B"
             [raw_node "A"
                [raw_node "C" [ex_leaf X 9] None;
                 raw_node "D" [ex_leaf Y 5] None]
                None]
             None]
          None
  | _ => False
  end.
Proof. by vm_compute. Qed.

(** C4.  The rule without clauses is in neither output. *)
Theorem empty_premise_is_lost :
  mkRule ∅ X ∈ rules ex_no_clause
  ∧ rules (_partition_ruleset ex_no_clause A).1 = ∅
  ∧ rules (_partition_ruleset ex_no_clause A).2 = ∅.
Proof.
  split; [by apply elem_of_singleton|].
  split; apply leibniz_equiv, elements_empty_inv; by vm_compute.
Qed.

(** C5 as stated fails: the term [A] is in both clauses of the only rule,
    so it is counted twice although one rule uses it. *)
Lemma count_is_per_clause :
  get0 (_get_term_counts ex_two_clauses).2 A
  ≠ Z.of_nat (rules_using A ex_two_clauses).
Proof. by vm_compute. Qed.

(** One rule with one clause of two terms. *)
Definition ex_one : ex_ruleset :=
  mkRuleset {[ rule1 {[ A; B ]} 9 X ]} [] [] false.

Definition ex_extract (ruleset : ex_ruleset) (merge : bool)
  : result (list ex_node) :=
  _extract_hierarchy_node (Dataset:=unit) str_letter (λ x _, str_letter x)
                          str_label 0 ruleset None merge.

Lemma ex_two_small (r : ex_rule) :
  r ∈ rules ex_two → (size (premise r) ≤ 1)%nat.
Proof.
  intros [c ->]%ex_two_single. by rewrite size_singleton.
Defined.

Lemma term_ranking_witness :
  (∀ r, r ∈ rules ex_two → (size (premise r) ≤ 1)%nat)
  ∧ (2 ≤ size (rules ex_two))%nat
  ∧ (_get_term_counts ex_two).1 = [B; A]
  ∧ get0 (_get_term_counts ex_two).2 B = Z.of_nat (rules_using B ex_two)
  ∧ ex_extract ex_two false
    = bind (ex_extract (_partition_ruleset ex_two B).1 false)
        (λ kids,
          bind (ex_extract (_partition_ruleset ex_two B).2 false)
            (λ siblings, Ok (raw_node "B" kids None :: siblings))).
Proof.
  assert (Hsize : (2 ≤ size (rules ex_two))%nat) by (vm_compute; lia).
  assert (Hrank : (_get_term_counts ex_two).1 = [B; A]) by (by vm_compute).
  destruct (term_ranking str_letter (λ x (_ : unit), str_letter x) str_label 0
              ex_two) as (_ & _ & _ & _ & _ & Hcount & Hsplit).
  split; [exact ex_two_small|]. split; [exact Hsize|]. split; [exact Hrank|].
  split; [exact (Hcount ex_two_small B)|].
  exact (proj2 (Hsplit None false B [A] Hsize Hrank)).
Defined.

Lemma base_case_shape_witness :
  rules ex_one = {[ rule1 {[ A; B ]} 9 X ]}
  ∧ ex_extract ex_one true
    = Ok [raw_node
            (_htmlify (String.concat " AND "
                         (map str_letter (elements ({[ A; B ]} : gset letter)))))
            [ex_leaf X 9] None].
Proof.
  split; [reflexivity|].
  destruct (base_case_shape str_letter (λ x (_ : unit), str_letter x) str_label 0
              ex_one (rule1 {[ A; B ]} 9 X) None true eq_refl) as [_ Hclause].
  destruct (Hclause (mkClause {[ A; B ]} 1 9) eq_refl) as (_ & Hmerge & _).
  apply Hmerge; [|reflexivity].
  cbn [terms]. intros Hempty.
  assert (Hin : A ∈ (∅ : gset letter)).
  { rewrite <- Hempty. apply elem_of_union_l. by apply elem_of_singleton. }
  by apply not_elem_of_empty in Hin.
Defined.

Lemma num_descendants_invariant_witness :
  ∃ tree, ex_tree ex_two false = Ok tree ∧ every_node descendants_ok tree.
Proof.
  destruct (ex_tree ex_two false) as [tree| |] eqn:E;
    [|by vm_compute in E|by vm_compute in E].
  exists tree. split; [reflexivity|].
  exact (num_descendants_invariant str_letter (λ x (_ : unit), str_letter x)
           str_label 0 ex_two None false tree E).
Defined.

Lemma class_counts_invariant_witness :
  ∃ tree, ex_tree ex_two false = Ok tree ∧ every_node class_counts_ok tree.
Proof.
  destruct (ex_tree ex_two false) as [tree| |] eqn:E;
    [|by vm_compute in E|by vm_compute in E].
  exists tree. split; [reflexivity|].
  exact (class_counts_invariant str_letter (λ x (_ : unit), str_letter x)
           str_label 0 ex_two None false tree E).
Defined.

Lemma depth_invariant_witness :
  ∃ tree, ex_tree ex_two true = Ok tree
          ∧ name tree = "ruleset" ∧ depth tree = Some 0
          ∧ every_node depth_ok tree.
Proof.
  destruct (ex_tree ex_two true) as [tree| |] eqn:E;
    [|by vm_compute in E|by vm_compute in E].
  exists tree. split; [reflexivity|].
  exact (depth_invariant str_letter (λ x (_ : unit), str_letter x)
           str_label 0 ex_two None true tree E).
Defined.

(** The two outputs of a partition may hold the same rule, coming from
    two rules of the input. *)
Definition ex_meet : ex_ruleset :=
  mkRuleset {[ rule1 {[ A; B ]} 9 X; rule1 {[ B ]} 9 X ]} [] [] false.

Lemma partition_outputs_may_meet :
  rule1 {[ A; B ]} 9 X ≠ rule1 {[ B ]} 9 X
  ∧ rule1 {[ B ]} 9 X ∈ rules (_partition_ruleset ex_meet A).1
  ∧ rule1 {[ B ]} 9 X ∈ rules (_partition_ruleset ex_meet A).2.
Proof.
  assert (HA : A ∉ ({[ B ]} : gset letter)).
  { by intros ?%elem_of_singleton. }
  split; [|split].
  - intros Heq. apply HA.
    assert (Hc : mkClause (Confidence:=Z) (Score:=Z) {[ A; B ]} 1 9
                 ∈ premise (rule1 {[ B ]} 9 X)).
    { rewrite <- Heq. by apply elem_of_singleton. }
    unfold rule1 in Hc. cbn [premise] in Hc.
    apply elem_of_singleton in Hc.
    apply (f_equal terms) in Hc. cbn [terms] in Hc. rewrite <- Hc.
    apply elem_of_union_l. by apply elem_of_singleton.
  - apply elem_of_contain.
    exists (rule1 {[ A; B ]} 9 X), (mkClause {[ A; B ]} 1 9).
    split; [apply elem_of_union_l; by apply elem_of_singleton|].
    split; [by apply elem_of_singleton|].
    split; [apply elem_of_union_l; by apply elem_of_singleton|].
    unfold contain_of, strip_term, rule1. cbn [fst snd terms confidence
      clause_score conclusion]. by do 3 f_equal.
  - apply elem_of_disjoint.
    exists (rule1 {[ B ]} 9 X), (mkClause {[ B ]} 1 9).
    split; [apply elem_of_union_r; by apply elem_of_singleton|].
    split; [by apply elem_of_singleton|].
    split; [exact HA|reflexivity].
Qed.

(** * Escaping *)

(** [s] begins with the character [b]. *)
Definition starts (b : ascii) (s : string) : bool :=
  match s with
  | EmptyString => false
  | String c _ => Ascii.eqb c b
  end.

(** [s] ends with the character [a]. *)
Fixpoint ends (a : ascii) (s : string) : bool :=
  match s with
  | EmptyString => false
  | String c s' =>
      match s' with
      | EmptyString => Ascii.eqb c a
      | _ => ends a s'
      end
  end.

(** The characters [a], [b] occur next to each other in [s], which is
    Python's [a + b in s]. *)
Fixpoint has2 (a b : ascii) (s : string) : bool :=
  match s with
  | EmptyString => false
  | String c s' => (Ascii.eqb c a && starts b s') || has2 a b s'
  end.

Lemma has2_occurrence (a b : ascii) (s : string) :
  has2 a b s = true ↔ ∃ pre post, s = pre +:+ String a (String b post).
Proof.
  induction s as [|c s IH]; cbn [has2].
  - split; [done|]. intros ([|? ?] & post & Heq); discriminate.
  - rewrite orb_true_iff, andb_true_iff, IH. split.
    + intros [[Hc Hs]|(pre & post & ->)].
      * apply Ascii.eqb_eq in Hc as ->. destruct s as [|d s]; [done|].
        cbn in Hs. apply Ascii.eqb_eq in Hs as ->. by exists "", s.
      * by exists (String c pre), post.
    + intros ([|c' pre] & post & Heq); cbn in Heq; injection Heq as -> ->.
      * left. cbn. by rewrite !Ascii.eqb_refl.
      * right. by exists pre, post.
Qed.

Lemma has2_tail (a b c : ascii) (s : string) :
  has2 a b (String c s) = false → has2 a b s = false.
Proof. cbn [has2]. by intros [_ ?]%orb_false_iff. Qed.

Lemma has2_app (a b : ascii) (u t : string) :
  has2 a b (u +:+ t)
  = (has2 a b u || (ends a u && starts b t) || has2 a b t)%bool.
Proof.
  induction u as [|c u IH]; [done|].
  change (String c u +:+ t) with (String c (u +:+ t)).
  cbn [has2]. rewrite IH. clear IH.
  destruct u as [|d u].
  - change ("" +:+ t) with t. cbn [starts ends has2].
    by destruct (Ascii.eqb c a), (starts b t), (has2 a b t).
  - change (String d u +:+ t) with (String d (u +:+ t)).
    cbn [starts ends has2].
    by destruct (Ascii.eqb c a && Ascii.eqb d b)%bool.
Qed.

Lemma replace2_cons2 (a b c d : ascii) (new s : string) :
  replace2 a b new (String c (String d s))
  = if (Ascii.eqb c a && Ascii.eqb d b)%bool
    then new +:+ replace2 a b new s
    else String c (replace2 a b new (String d s)).
Proof. reflexivity. Qed.

Lemma replace2_starts (a' b' b : ascii) (new s : string) :
  starts b new = false → new ≠ "" →
  starts b (replace2 a' b' new s) = true → starts b s = true.
Proof.
  intros Hnew Hne. destruct s as [|c [|d s]]; [done|done|].
  rewrite replace2_cons2.
  destruct (Ascii.eqb c a' && Ascii.eqb d b')%bool; [|done].
  destruct new as [|n new]; [done|].
  change (String n new +:+ ?t) with (String n (new +:+ t)).
  cbn [starts] in *. by rewrite Hnew.
Qed.

(** Replacing a pattern by a text that neither holds nor can complete the
    pattern [a], [b] leaves no occurrence of [a], [b], when the replaced
    pattern is [a], [b] itself or when the input has no occurrence. *)
Lemma replace2_no_pattern (a b a' b' : ascii) (new : string) :
  has2 a b new = false → starts b new = false → ends a new = false →
  new ≠ "" →
  ∀ s, ((a', b') = (a, b) ∨ has2 a b s = false) →
       has2 a b (replace2 a' b' new s) = false.
Proof.
  intros Hin Hstart Hend Hne.
  assert (Hboth : ∀ s,
    (((a', b') = (a, b) ∨ has2 a b s = false) →
     has2 a b (replace2 a' b' new s) = false)
    ∧ ∀ c, ((a', b') = (a, b) ∨ has2 a b (String c s) = false) →
           has2 a b (replace2 a' b' new (String c s)) = false).
  { induction s as [|d s [IH1 IH2]].
    - split; [done|]. intros c _. cbn. by rewrite andb_false_r.
    - split; [apply IH2|]. intros c Hs. rewrite replace2_cons2.
      assert (Hs1 : (a', b') = (a, b) ∨ has2 a b (String d s) = false).
      { destruct Hs as [?|?%has2_tail]; auto. }
      assert (Hs2 : (a', b') = (a, b) ∨ has2 a b s = false).
      { destruct Hs1 as [?|?%has2_tail]; auto. }
      destruct (Ascii.eqb c a' && Ascii.eqb d b')%bool eqn:Hm.
      + rewrite has2_app, Hin, Hend, (IH1 Hs2). done.
      + cbn [has2]. rewrite (IH2 d Hs1), orb_false_r.
        apply andb_false_iff.
        destruct (Ascii.eqb c a) eqn:Hc; [right|by left].
        destruct (starts b (replace2 a' b' new (String d s))) eqn:Hst; [|done].
        apply replace2_starts in Hst; [|done|done]. cbn in Hst.
        destruct Hs as [[= -> ->]|Hs].
        * by rewrite Hc, Hst in Hm.
        * cbn in Hs. by rewrite Hc, Hst in Hs. }
  intros s. apply Hboth.
Qed.

Lemma replace2_identity (a b : ascii) (new : string) :
  ∀ s, has2 a b s = false → replace2 a b new s = s.
Proof.
  assert (Hboth : ∀ s,
    (has2 a b s = false → replace2 a b new s = s)
    ∧ ∀ c, has2 a b (String c s) = false →
           replace2 a b new (String c s) = String c s).
  { induction s as [|d s' [IH1 IH2]].
    - by split.
    - split; [apply IH2|]. intros c Hs. rewrite replace2_cons2.
      pose proof (has2_tail _ _ _ _ Hs) as Hs1.
      cbn [has2 starts] in Hs. apply orb_false_iff in Hs as [Hm _].
      rewrite Hm. by rewrite (IH2 d Hs1). }
  intros s. apply Hboth.
Qed.

(** X1.  The escaped string holds neither ["<="] nor [">="]. *)
Theorem htmlify_escapes (s : string) :
  has2 "<" "=" (_htmlify s) = false ∧ has2 ">" "=" (_htmlify s) = false.
Proof.
  unfold _htmlify. split.
  - apply replace2_no_pattern; [done|done|done|done|].
    right. apply replace2_no_pattern; [done|done|done|done|by left].
  - apply replace2_no_pattern; [done|done|done|done|by left].
Qed.

(** X2.  A string without ["<="] and [">="] is left as it is, so escaping
    twice is escaping once. *)
Theorem htmlify_fixpoint (s : string) :
  (has2 "<" "=" s = false → has2 ">" "=" s = false → _htmlify s = s)
  ∧ _htmlify (_htmlify s) = _htmlify s.
Proof.
  assert (Hid : ∀ t, has2 "<" "=" t = false → has2 ">" "=" t = false →
                     _htmlify t = t).
  { intros t H1 H2. unfold _htmlify.
    rewrite (replace2_identity "<" "=" _ t H1).
    by apply replace2_identity. }
  split; [apply Hid|].
  apply Hid; apply htmlify_escapes.
Qed.

Lemma htmlify_fixpoint_witness :
  has2 "<" "=" "x > 3" = false ∧ has2 ">" "=" "x > 3" = false
  ∧ _htmlify "x > 3" = "x > 3".
Proof.
  split; [reflexivity|]. split; [reflexivity|].
  apply (proj1 (htmlify_fixpoint "x > 3")); reflexivity.
Defined.

(** X16.  No name of a returned tree holds ["<="] or [">="]. *)
Theorem names_hold_no_reserved_pair
    {Term : Type} {Term_eq : EqDecision Term} {Term_count : Countable Term}
    {Conclusion : Type} {Conclusion_eq : EqDecision Conclusion}
    {Conclusion_count : Countable Conclusion}
    {Confidence : Type} {Confidence_eq : EqDecision Confidence}
    {Confidence_count : Countable Confidence}
    {Score : Type} {Score_eq : EqDecision Score} {Score_count : Countable Score}
    {Dataset : Type}
    (str_term : Term → string) (to_cat_str : Term → Dataset → string)
    (str_conclusion : Conclusion → string) (score_zero : Score)
    (ruleset : Ruleset (Term:=Term) (Conclusion:=Conclusion)
                       (Confidence:=Confidence) (Score:=Score))
    (dataset : option Dataset) (merge : bool) (tree : Node (Score:=Score)) :
  ruleset_hierarchy_tree str_term to_cat_str str_conclusion score_zero
                         ruleset dataset merge = Ok tree →
  every_node (λ n, has2 "<" "=" (name n) = false
                   ∧ has2 ">" "=" (name n) = false) tree.
Proof.
  intros Htree.
  destruct (names_are_escaped str_term to_cat_str str_conclusion score_zero
              ruleset dataset merge tree Htree) as [Hroot Hkids].
  constructor; [by rewrite Hroot|].
  eapply Forall_impl; [exact Hkids|]. intros n Hn.
  eapply every_node_impl; [|exact Hn].
  intros k [s ->]. apply htmlify_escapes.
Qed.

(** * The further properties on the concrete rule sets *)

Lemma ex_two_ranking : (_get_term_counts ex_two).1 = [B; A].
Proof. by vm_compute. Qed.

Lemma ex_two_rule_Y : rule1 {[ B ]} 5 Y ∈ rules ex_two.
Proof. apply elem_of_union_r. by apply elem_of_singleton. Qed.

Lemma ex_two_disjoint_Y :
  rule1 {[ B ]} 5 Y ∈ rules (_partition_ruleset ex_two A).2.
Proof.
  apply elem_of_disjoint. exists (rule1 {[ B ]} 5 Y), (mkClause {[ B ]} 1 5).
  split; [exact ex_two_rule_Y|]. split; [by apply elem_of_singleton|].
  split; [cbn [terms]; by intros ?%elem_of_singleton|reflexivity].
Qed.

Lemma ex_two_without_C (r : ex_rule) (c : ConjunctiveClause) :
  r ∈ rules ex_two → c ∈ premise r → C ∉ terms c.
Proof.
  unfold ex_two. cbn [rules].
  intros [Hr|Hr]%elem_of_union; apply elem_of_singleton in Hr; subst r;
    unfold rule1; cbn [premise];
    intros Hc%elem_of_singleton; subst c; cbn [terms].
  - intros [Hin|Hin]%elem_of_union; by apply elem_of_singleton in Hin.
  - by intros Hin%elem_of_singleton.
Qed.

Lemma ex_clash_single (r : ex_rule) :
  r ∈ rules ex_clash → ∃ c, premise r = {[ c ]}.
Proof.
  unfold ex_clash. cbn [rules].
  intros [Hr|Hr]%elem_of_union; apply elem_of_singleton in Hr; subst r;
    eexists; reflexivity.
Qed.

Lemma ex_clash_clash : clash ex_clash.
Proof.
  exists (rule1 {[ A ]} 9 X), (rule1 {[ A ]} 5 Y),
         (mkClause {[ A ]} 1 9), (mkClause {[ A ]} 1 5).
  split; [apply elem_of_union_l; by apply elem_of_singleton|].
  split; [apply elem_of_union_r; by apply elem_of_singleton|].
  split; [reflexivity|]. split; [reflexivity|]. split; [reflexivity|].
  intros Heq. apply (f_equal conclusion) in Heq. discriminate Heq.
Qed.

Lemma ex_two_no_clash : ¬ clash ex_two.
Proof.
  assert (Hdiff : ({[ A; B ]} : gset letter) ≠ {[ B ]}).
  { intros Heq. assert (Hin : A ∈ ({[ B ]} : gset letter)).
    { rewrite <- Heq. apply elem_of_union_l. by apply elem_of_singleton. }
    by apply elem_of_singleton in Hin. }
  intros (r1 & r2 & c1 & c2 & Hr1 & Hr2 & Hc1 & Hc2 & Hterms & Hne).
  unfold ex_two in Hr1, Hr2. cbn [rules] in Hr1, Hr2.
  assert (Hclause : ∀ ts s co (c : ConjunctiveClause),
             premise (rule1 ts s co) = {[ c ]} → terms c = ts).
  { intros ts s co c Hc.
    assert (Hin : mkClause ts 1 s ∈ ({[ c ]} : gset ConjunctiveClause)).
    { rewrite <- Hc. by apply elem_of_singleton. }
    by apply elem_of_singleton in Hin as <-. }
  apply elem_of_union in Hr1 as [Hr1|Hr1]; apply elem_of_singleton in Hr1;
    apply elem_of_union in Hr2 as [Hr2|Hr2]; apply elem_of_singleton in Hr2;
    subst r1 r2; try done;
    apply Hclause in Hc1; apply Hclause in Hc2; congruence.
Qed.

Lemma partition_outputs_shape_witness :
  (rule1 {[ B ]} 5 Y ∈ rules (_partition_ruleset ex_two A).1
   ∨ rule1 {[ B ]} 5 Y ∈ rules (_partition_ruleset ex_two A).2)
  ∧ ∃ c, premise (rule1 {[ B ]} 5 Y) = {[ c ]} ∧ A ∉ terms c.
Proof.
  split; [right; exact ex_two_disjoint_Y|].
  exact (partition_outputs_shape ex_two A (rule1 {[ B ]} 5 Y)
           (or_intror ex_two_disjoint_Y)).
Defined.

Lemma partition_unused_term_witness :
  (∀ r c, r ∈ rules ex_two → c ∈ premise r → C ∉ terms c)
  ∧ rules (_partition_ruleset ex_two C).1 = ∅
  ∧ rules (_partition_ruleset ex_two C).2 = rules ex_two.
Proof.
  split; [exact ex_two_without_C|].
  destruct (partition_unused_term ex_two C ex_two_without_C) as [Hc Hd].
  split; [exact Hc|exact (Hd ex_two_single)].
Defined.

Lemma count_bounds_witness :
  B ∈ (_get_term_counts ex_two).1
  ∧ 1 ≤ get0 (_get_term_counts ex_two).2 B
      ≤ Z.of_nat (length (clause_pairs ex_two)).
Proof.
  assert (HB : B ∈ (_get_term_counts ex_two).1).
  { rewrite ex_two_ranking. apply list_elem_of_here. }
  split; [exact HB|exact (count_bounds ex_two B HB)].
Defined.


Lemma returns_unless_clash_witness :
  (clash ex_clash ∧ ex_tree ex_clash true = IndexError)
  ∧ (¬ clash ex_two ∧ ∃ tree, ex_tree ex_two true = Ok tree).
Proof.
  split.
  - split; [exact ex_clash_clash|].
    exact (proj2 (returns_unless_clash str_letter (λ x (_ : unit), str_letter x)
                    str_label 0 ex_clash None true ex_clash_single)
                 ex_clash_clash).
  - split; [exact ex_two_no_clash|].
    exact (proj1 (returns_unless_clash str_letter (λ x (_ : unit), str_letter x)
                    str_label 0 ex_two None true ex_two_single)
                 ex_two_no_clash).
Defined.

Lemma leaves_when_returned_witness :
  ∃ tree, ex_tree ex_two false = Ok tree
          ∧ length (leaf_names tree) = size (rules ex_two).
Proof.
  destruct (ex_tree ex_two false) as [tree| |] eqn:E;
    [|by vm_compute in E|by vm_compute in E].
  exists tree. split; [reflexivity|].
  exact (proj2 (leaves_when_returned str_letter (λ x (_ : unit), str_letter x)
                  str_label 0 ex_two None false tree ex_two_single E)).
Defined.

Lemma score_marks_leaves_witness :
  ∃ tree, ex_tree ex_two false = Ok tree
          ∧ score tree = None
          ∧ Forall (every_node leaf_iff_score) (children tree).
Proof.
  destruct (ex_tree ex_two false) as [tree| |] eqn:E;
    [|by vm_compute in E|by vm_compute in E].
  exists tree. split; [reflexivity|].
  exact (score_marks_leaves str_letter (λ x (_ : unit), str_letter x)
           str_label 0 ex_two None false tree E).
Defined.

Lemma one_rule_tree_witness :
  rules ex_one = {[ rule1 {[ A; B ]} 9 X ]}
  ∧ ∃ tree, ex_tree ex_one false = Ok tree ∧ leaf_names tree = ["X"].
Proof.
  split; [reflexivity|].
  exact (one_rule_tree str_letter (λ x (_ : unit), str_letter x) str_label 0
           ex_one (rule1 {[ A; B ]} 9 X) None false eq_refl).
Defined.

Lemma names_hold_no_reserved_pair_witness :
  ∃ tree, ex_tree ex_two true = Ok tree
          ∧ every_node (λ n, has2 "<" "=" (name n) = false
                             ∧ has2 ">" "=" (name n) = false) tree.
Proof.
  destruct (ex_tree ex_two true) as [tree| |] eqn:E;
    [|by vm_compute in E|by vm_compute in E].
  exists tree. split; [reflexivity|].
  exact (names_hold_no_reserved_pair str_letter (λ x (_ : unit), str_letter x)
           str_label 0 ex_two None true tree E).
Defined.

Lemma ex_two_not_empty : rules ex_two ≠ ∅.
Proof.
  intros Hempty. pose proof ex_two_rule_Y as Hin.
  rewrite Hempty in Hin. by apply not_elem_of_empty in Hin.
Qed.

Lemma root_counts_rules_witness :
  rules ex_two ≠ ∅
  ∧ ∃ tree, ex_tree ex_two false = Ok tree
            ∧ get0 (get_class_counts tree) "X"
              = Z.of_nat (length (filter (λ r, conclusion_name str_label r = "X")
                                         (elements (rules ex_two)))).
Proof.
  split; [exact ex_two_not_empty|].
  destruct (ex_tree ex_two false) as [tree| |] eqn:E;
    [|by vm_compute in E|by vm_compute in E].
  exists tree. split; [reflexivity|].
  exact (root_counts_rules str_letter (λ x (_ : unit), str_letter x)
           str_label 0 ex_two None false tree "X"
           ex_two_single ex_two_not_empty E).
Defined.
